(** * AIND-Recognizer: HMM model selection and recognition

    A shallow embedding of [my_model_selectors.py] and [my_recognizer.py].

    Python floats are IEEE binary64 numbers and are modelled by Rocq's
    primitive floats, so that [float('inf')], [float('-inf')], NaN and the
    comparisons [<] and [>] behave as they do in the source.  Python integers
    are [Z].  A [dict] is an association list in insertion order whose keys
    are pairwise distinct.  Exceptions are the [Raise] results of an error
    monad; [try: ... except: ...] is [try_except].

    The fitting engine ([hmmlearn]'s [GaussianHMM]) and the two [numpy]
    functions the selectors call are external: they are the fields of the
    class [Engine].  Every call of the engine is recorded in a log, so that
    statements about which fits and scorings a selector attempts can be
    made.  The diagnostic [print]s guarded by [self.verbose] and the calls of
    [warnings.filterwarnings] have no effect on the control flow and are left
    out. *)

From Stdlib Require Import String.
From Stdlib Require Import ZArith List Floats Bool Lia Arith.
Import ListNotations.

Open Scope Z_scope.

(** ** Python values and primitives *)

Module Py.

Inductive exn : Type :=
| ValueError | KeyError | IndexError | ZeroDivisionError | EngineError.

Inductive result (A : Type) : Type :=
| Ret (a : A)
| Raise (e : exn).
Arguments Ret {A} a.
Arguments Raise {A} e.

Definition word := string.
(** One observation: the feature values of one frame. *)
Definition vector := list float.
(** One training or test sequence. *)
Definition sequence := list vector.
(** The concatenated observations of several sequences (the array [X]). *)
Definition matrix := list vector.
Definition Xlengths := (matrix * list Z)%type.

Definition len {A} (l : list A) : Z := Z.of_nat (List.length l).

(** [range(a, b)] *)
Definition range (a b : Z) : list Z :=
  map (fun i => a + Z.of_nat i) (seq 0 (Z.to_nat (b - a))).

(** Conversion of a Python int to a float (round to nearest even). *)
Definition Z2float (z : Z) : float :=
  SF2Prim (binary_normalize prec emax z 0 false).

(** [x / n] for a Python float [x] and an int [n]. *)
Definition truediv (x : float) (n : Z) : result float :=
  if n =? 0 then Raise ZeroDivisionError else Ret (x / Z2float n)%float.

(** [X.shape[1]] of a two-dimensional array: the length of its rows.  An
    array without rows has no second dimension. *)
Definition shape1 (X : matrix) : result Z :=
  match X with
  | [] => Raise IndexError
  | row :: _ => Ret (len row)
  end.

(** *** dict *)

Definition dict (V : Type) := list (word * V).

Definition dict_keys {V} (d : dict V) : list word := map fst d.

Fixpoint dict_get {V} (d : dict V) (k : word) : option V :=
  match d with
  | [] => None
  | (k', v) :: d' => if String.eqb k' k then Some v else dict_get d' k
  end.

(** [d[k]] *)
Definition dict_getitem {V} (d : dict V) (k : word) : result V :=
  match dict_get d k with
  | Some v => Ret v
  | None => Raise KeyError
  end.

(** [d[k] = v]: an existing key keeps its position. *)
Fixpoint dict_set {V} (d : dict V) (k : word) (v : V) : dict V :=
  match d with
  | [] => [(k, v)]
  | (k', v') :: d' =>
      if String.eqb k' k then (k', v) :: d' else (k', v') :: dict_set d' k v
  end.

(** [{k: f(v) for k, v in d.items()}] *)
Definition dict_comprehension {V W} (f : V -> W) (d : dict V) : dict W :=
  fold_left (fun acc kv => dict_set acc (fst kv) (f (snd kv))) d [].

(** *** max(iterable, key=...) : the first item whose key no later item
    exceeds; [ValueError] on an empty iterable. *)
Fixpoint max_loop {A} (key : A -> float) (best : A) (rest : list A) : A :=
  match rest with
  | [] => best
  | x :: tl =>
      if (key best <? key x)%float then max_loop key x tl
      else max_loop key best tl
  end.

Definition max_key {A} (key : A -> float) (l : list A) : result A :=
  match l with
  | [] => Raise ValueError
  | x :: tl => Ret (max_loop key x tl)
  end.

(** [d.get] used as the key of [max] over the keys of [d] itself, where
    every lookup succeeds; the value for an absent key is never used. *)
Definition dict_get_float (d : dict float) (k : word) : float :=
  match dict_get d k with
  | Some v => v
  | None => nan
  end.

End Py.
Import Py.

(** ** External collaborators *)

(** The fitting and scoring engine and the numpy functions, as deterministic
    functions of their arguments.  [GaussianHMM_fit n seed X lengths] is
    [GaussianHMM(n_components=n, covariance_type="diag", n_iter=1000,
    random_state=seed, verbose=False).fit(X, lengths)]; [Model_score m X
    lengths] is [m.score(X, lengths)]; both may raise. *)
Class Engine : Type := {
  Model : Type;
  GaussianHMM_fit : Z -> Z -> matrix -> list Z -> result Model;
  Model_score : Model -> matrix -> list Z -> result float;
  np_log : Z -> float;
  np_mean : list float -> float
}.

(** Modelled from the spec: [combine_sequences] of [asl_utils], which is not
    among the sources.  It concatenates the sequences selected by an index
    list into the flattened representation (all observation vectors in order,
    and the list of the sequences' lengths). *)
Fixpoint select_sequences (split_index_list : list nat) (sequences : list sequence)
  : result (list sequence) :=
  match split_index_list with
  | [] => Ret []
  | idx :: rest =>
      match nth_error sequences idx with
      | None => Raise IndexError
      | Some s =>
          match select_sequences rest sequences with
          | Ret l => Ret (s :: l)
          | Raise e => Raise e
          end
      end
  end.

Definition combine_sequences (split_index_list : list nat) (sequences : list sequence)
  : result Xlengths :=
  match select_sequences split_index_list sequences with
  | Ret sequences_fold => Ret (concat sequences_fold, map len sequences_fold)
  | Raise e => Raise e
  end.

(** [KFold(n_splits, shuffle=False).split(...)] of scikit-learn on [n]
    samples: consecutive test blocks, the first [n mod n_splits] of them one
    longer; the training indices are the remaining ones in order.  Fewer
    samples than splits is a [ValueError]. *)
Definition fold_sizes (n_splits n : nat) : list nat :=
  map (fun i => (n / n_splits + (if i <? n mod n_splits then 1 else 0))%nat)
      (seq 0 n_splits).

Fixpoint KFold_iter (n current : nat) (sizes : list nat) : list (list nat * list nat) :=
  match sizes with
  | [] => []
  | fold_size :: rest =>
      let stop := (current + fold_size)%nat in
      (seq 0 current ++ seq stop (n - stop), seq current fold_size)
        :: KFold_iter n stop rest
  end.

Definition KFold_split (n_splits n : nat) : result (list (list nat * list nat)) :=
  if (n <? n_splits)%nat then Raise ValueError
  else Ret (KFold_iter n 0 (fold_sizes n_splits n)).

(** ** my_model_selectors.py *)

Module Selectors.
Section WithEngine.
Context {E : Engine}.

(** The attributes of a [ModelSelector] instance. *)
Record ModelSelector : Type := mkSelector {
  words : dict (list sequence);
  hwords : dict Xlengths;
  sequences : list sequence;
  X : matrix;
  lengths : list Z;
  this_word : word;
  n_constant : Z;
  min_n_components : Z;
  max_n_components : Z;
  random_state : Z;
  verbose : bool
}.

(** [ModelSelector.__init__] *)
Definition init (all_word_sequences : dict (list sequence))
    (all_word_Xlengths : dict Xlengths) (this_word : word)
    (n_constant min_n_components max_n_components random_state : Z)
    (verbose : bool) : result ModelSelector :=
  match dict_getitem all_word_sequences this_word with
  | Raise e => Raise e
  | Ret seqs =>
      match dict_getitem all_word_Xlengths this_word with
      | Raise e => Raise e
      | Ret (x, l) =>
          Ret (mkSelector all_word_sequences all_word_Xlengths seqs x l
                 this_word n_constant min_n_components max_n_components
                 random_state verbose)
      end
  end.

(** The calls of the engine, in the order they are made. *)
Inductive event : Type :=
| EvFit (num_states : Z) (seed : Z) (X : matrix) (lengths : list Z)
| EvScore (m : Model) (X : matrix) (lengths : list Z).

(** The state a call of [select] works on: the instance, the log of engine
    calls, and the local variables of [select] that are assigned inside
    its loops. *)
Record Frame : Type := mkFrame {
  self : ModelSelector;
  log : list event;
  best_score : float;
  best_model : option Model;
  scores : list float
}.

(** State and exception monad; a raised exception keeps the state reached. *)
Definition prog (A : Type) : Type := Frame -> result A * Frame.

Definition ret {A} (a : A) : prog A := fun f => (Ret a, f).

Definition bind {A B} (c : prog A) (k : A -> prog B) : prog B :=
  fun f =>
    match c f with
    | (Ret a, f') => k a f'
    | (Raise e, f') => (Raise e, f')
    end.

Definition lift {A} (r : result A) : prog A := fun f => (r, f).

(** [try: c except: h] with a bare [except]. *)
Definition try_except {A} (c : prog A) (h : prog A) : prog A :=
  fun f =>
    match c f with
    | (Ret a, f') => (Ret a, f')
    | (Raise _, f') => h f'
    end.

Definition get : prog Frame := fun f => (Ret f, f).

Local Notation "x <- c ;; k" := (bind c (fun x => k))
  (at level 61, c at next level, right associativity).
Local Notation "c ;;; k" := (bind c (fun _ => k))
  (at level 61, right associativity).

Fixpoint for_each {A} (l : list A) (body : A -> prog unit) : prog unit :=
  match l with
  | [] => ret tt
  | x :: rest => body x ;;; for_each rest body
  end.

(** A loop that updates one local variable which no handler reads. *)
Fixpoint for_fold {A B} (l : list A) (body : B -> A -> prog B) (acc : B) : prog B :=
  match l with
  | [] => ret acc
  | x :: rest => acc' <- body acc x ;; for_fold rest body acc'
  end.

Definition get_self : prog ModelSelector := fun f => (Ret (self f), f).

(** [self.X, self.lengths = xl] *)
Definition with_X_lengths (s : ModelSelector) (xl : Xlengths) : ModelSelector :=
  mkSelector (words s) (hwords s) (sequences s) (fst xl) (snd xl)
    (this_word s) (n_constant s) (min_n_components s)
    (max_n_components s) (random_state s) (verbose s).

Definition set_X_lengths (xl : Xlengths) : prog unit :=
  fun f =>
    (Ret tt,
     mkFrame (with_X_lengths (self f) xl)
             (log f) (best_score f) (best_model f) (scores f)).

Definition set_best_score (v : float) : prog unit :=
  fun f => (Ret tt, mkFrame (self f) (log f) v (best_model f) (scores f)).

Definition set_best_model (m : option Model) : prog unit :=
  fun f => (Ret tt, mkFrame (self f) (log f) (best_score f) m (scores f)).

Definition set_scores (l : list float) : prog unit :=
  fun f => (Ret tt, mkFrame (self f) (log f) (best_score f) (best_model f) l).

Definition emit (e : event) : prog unit :=
  fun f => (Ret tt, mkFrame (self f) (log f ++ [e]) (best_score f) (best_model f) (scores f)).

Definition call_fit (num_states seed : Z) (x : matrix) (l : list Z) : prog Model :=
  emit (EvFit num_states seed x l) ;;; lift (GaussianHMM_fit num_states seed x l).

Definition call_score (m : Model) (x : matrix) (l : list Z) : prog float :=
  emit (EvScore m x l) ;;; lift (Model_score m x l).

(** [ModelSelector.base_model] *)
Definition base_model (num_states : Z) : prog (option Model) :=
  try_except
    (s <- get_self ;;
     hmm_model <- call_fit num_states (random_state s) (X s) (lengths s) ;;
     ret (Some hmm_model))
    (ret None).

(** [SelectorConstant.select] *)
Definition SelectorConstant_select : prog (option Model) :=
  s <- get_self ;;
  let best_num_components := n_constant s in
  base_model best_num_components.

(** [BIC = -2 * logL + p * logN] with [p = num_states * (d * 2 + 1)]. *)
Definition BIC (num_states d : Z) (logL logN : float) : float :=
  let p := num_states * (d * 2 + 1) in
  (-2 * logL + Z2float p * logN)%float.

(** [SelectorBIC.select]: the body of its loop over the state counts, and
    the method. *)
Definition SelectorBIC_body (num_states : Z) : prog unit :=
  try_except
    (hmm_model <- base_model num_states ;;
     match hmm_model with
     | Some m =>
         s <- get_self ;;
         logL <- call_score m (X s) (lengths s) ;;
         d <- lift (shape1 (X s)) ;;
         let logN := np_log (len (X s)) in
         let BIC_score := BIC num_states d logL logN in
         f <- get ;;
         if (BIC_score <? best_score f)%float then
           set_best_score BIC_score ;;;
           set_best_model (Some m)
         else ret tt
     | None => ret tt
     end)
    (ret tt).

Definition SelectorBIC_select : prog (option Model) :=
  set_best_score infinity ;;;
  set_best_model None ;;;
  s0 <- get_self ;;
  for_each (range (min_n_components s0) (max_n_components s0)) SelectorBIC_body ;;;
  f <- get ;;
  ret (best_model f).

(** [SelectorDIC.select].  [SelectorDIC_competitor] is the body of the
    inner loop over the other words, [SelectorDIC_body] that of the loop
    over the state counts.  The source assigns [dic_score] and then
    [hmm_model] to [best_model]; the first assignment is overwritten at
    once, and [best_score] is never assigned in the loop.  In a vocabulary
    of one word the inner loop makes no iteration, [scores] is still the
    Python float [0.0], and its division by the int [M - 1 = 0] raises
    [ZeroDivisionError]. *)
Definition SelectorDIC_competitor (s : ModelSelector) (m : Model)
    (scores : float) (word : word) : prog float :=
  xl <- lift (dict_getitem (hwords s) word) ;;
  v <- call_score m (fst xl) (snd xl) ;;
  ret (scores + v)%float.

Definition SelectorDIC_body (M : Z) (num_states : Z) : prog unit :=
  try_except
    (hmm_model <- base_model num_states ;;
     match hmm_model with
     | Some m =>
         s <- get_self ;;
         score <- call_score m (X s) (lengths s) ;;
         scores <- for_fold
           (filter (fun w => negb (String.eqb w (this_word s)))
                   (dict_keys (words s)))
           (SelectorDIC_competitor s m) 0%float ;;
         q <- lift (truediv scores (M - 1)) ;;
         let dic_score := (score - q)%float in
         f <- get ;;
         if (best_score f <? dic_score)%float then
           set_best_model (Some m)
         else ret tt
     | None => ret tt
     end)
    (ret tt).

Definition SelectorDIC_select : prog (option Model) :=
  set_best_model None ;;;
  set_best_score neg_infinity ;;;
  s0 <- get_self ;;
  let M := len (words s0) in
  for_each (range (min_n_components s0) (max_n_components s0)) (SelectorDIC_body M) ;;;
  f <- get ;;
  ret (best_model f).

(** [SelectorCV.select].  [SelectorCV_fold] is the body of the loop over
    the folds, [SelectorCV_body] that of the loop over the state counts. *)
Definition SelectorCV_fold (num_states : Z) (fold : list nat * list nat) : prog unit :=
  let train := fst fold in
  let test := snd fold in
  s <- get_self ;;
  xl <- lift (combine_sequences train (sequences s)) ;;
  set_X_lengths xl ;;;
  xt <- lift (combine_sequences test (sequences s)) ;;
  hmm_model <- base_model num_states ;;
  match hmm_model with
  | Some m =>
      score <- call_score m (fst xt) (snd xt) ;;
      f <- get ;;
      set_scores (scores f ++ [score]) ;;;
      f <- get ;;
      let mean_score := np_mean (scores f) in
      if (best_score f <? mean_score)%float then
        set_best_score mean_score ;;;
        set_best_model (Some m)
      else ret tt
  | None => ret tt
  end.

Definition SelectorCV_body (num_states : Z) : prog unit :=
  set_scores [] ;;;
  try_except
    (s <- get_self ;;
     if 2 <? len (sequences s) then
       folds <- lift (KFold_split 3 (List.length (sequences s))) ;;
       for_each folds (SelectorCV_fold num_states)
     else
       hmm_model <- base_model num_states ;;
       match hmm_model with
       | Some m =>
           s <- get_self ;;
           score <- call_score m (X s) (lengths s) ;;
           f <- get ;;
           if (best_score f <? score)%float then
             set_best_score score ;;;
             set_best_model (Some m)
           else ret tt
       | None => ret tt
       end)
    (ret tt).

Definition SelectorCV_select : prog (option Model) :=
  set_best_score neg_infinity ;;;
  set_best_model None ;;;
  s0 <- get_self ;;
  let splits := Z.min 3 (len (sequences s0)) in
  for_each (range (min_n_components s0) (max_n_components s0)) SelectorCV_body ;;;
  f <- get ;;
  ret (best_model f).

(** The four strategies and the dispatch of [select]. *)
Inductive selector : Type :=
| SelectorConstant | SelectorBIC | SelectorDIC | SelectorCV.

Definition select_body (c : selector) : prog (option Model) :=
  match c with
  | SelectorConstant => SelectorConstant_select
  | SelectorBIC => SelectorBIC_select
  | SelectorDIC => SelectorDIC_select
  | SelectorCV => SelectorCV_select
  end.

(** A call [instance.select()]: a fresh frame of local variables, which
    hold placeholders until the method assigns them; the caller sees the
    result, the instance and the log. *)
Definition select (c : selector) (s : ModelSelector) (lg : list event)
  : result (option Model) * ModelSelector * list event :=
  let '(r, f) := select_body c (mkFrame s lg 0%float None []) in
  (r, self f, log f).

(** The state counts of the fits attempted in a log. *)
Definition attempted (lg : list event) : list Z :=
  flat_map (fun e => match e with EvFit k _ _ _ => [k] | _ => [] end) lg.

(** *** Definitions used to state the properties *)

Definition add_log (f : Frame) (evs : list event) : Frame :=
  mkFrame (self f) (log f ++ evs) (best_score f) (best_model f) (scores f).

(** The outcome of [base_model] and the engine call it makes. *)
Definition fit_opt (s : ModelSelector) (num_states : Z) : option Model :=
  match GaussianHMM_fit num_states (random_state s) (X s) (lengths s) with
  | Ret m => Some m
  | Raise _ => None
  end.

Definition fit_event (s : ModelSelector) (num_states : Z) : event :=
  EvFit num_states (random_state s) (X s) (lengths s).

(** Keeping the best score and model seen so far, for a comparison
    [better new old]. *)
Definition track (better : float -> float -> bool)
    (st : float * option Model) (c : option (Model * float))
  : float * option Model :=
  match c with
  | Some (m, sc) => if better sc (fst st) then (sc, Some m) else st
  | None => st
  end.

Definition lower (sc best : float) : bool := (sc <? best)%float.
Definition higher (sc best : float) : bool := (best <? sc)%float.

(** The candidate [num_states] of [SelectorBIC.select]: the fitted model
    and its BIC score, when the fit, the scoring and the reading of the
    dimension all succeed. *)
Definition bic_candidate (s : ModelSelector) (num_states : Z) : option (Model * float) :=
  match fit_opt s num_states with
  | Some m =>
      match Model_score m (X s) (lengths s), shape1 (X s) with
      | Ret logL, Ret d => Some (m, BIC num_states d logL (np_log (len (X s))))
      | _, _ => None
      end
  | None => None
  end.

Definition full_data_events (s : ModelSelector) (num_states : Z) : list event :=
  fit_event s num_states ::
  match fit_opt s num_states with
  | Some m => [EvScore m (X s) (lengths s)]
  | None => []
  end.

(** In the words of the specification: the candidate [k] fits to the model
    [m], which is scored, and [sc] is [-2*logL + p*ln(N)] with
    [p = k*(2*d + 1)], [d] the feature dimensionality and [N] the number of
    observation vectors of the word. *)
Definition bic_scored (s : ModelSelector) (k : Z) (m : Model) (sc : float) : Prop :=
  GaussianHMM_fit k (random_state s) (X s) (lengths s) = Ret m
  /\ exists logL d,
       Model_score m (X s) (lengths s) = Ret logL
       /\ shape1 (X s) = Ret d
       /\ let p := k * (2 * d + 1) in
          let N := len (X s) in
          sc = (-2 * logL + Z2float p * np_log N)%float.

(** The candidates of [SelectorDIC.select].  [dic_sum] is the sum of the
    candidate's scores on the other words' data, with the scorings made;
    [dic_candidate] the fitted model and its DIC score, when the fit, all
    scorings and the division succeed. *)
Definition others (s : ModelSelector) : list word :=
  filter (fun w => negb (String.eqb w (this_word s))) (dict_keys (words s)).

Fixpoint dic_sum (s : ModelSelector) (m : Model) (ws : list word) (acc : float)
  : result float * list event :=
  match ws with
  | [] => (Ret acc, [])
  | w :: rest =>
      match dict_getitem (hwords s) w with
      | Raise e => (Raise e, [])
      | Ret xl =>
          match Model_score m (fst xl) (snd xl) with
          | Raise e => (Raise e, [EvScore m (fst xl) (snd xl)])
          | Ret v =>
              let '(r, evs) := dic_sum s m rest (acc + v)%float in
              (r, EvScore m (fst xl) (snd xl) :: evs)
          end
      end
  end.

Definition dic_candidate (s : ModelSelector) (num_states : Z) : option (Model * float) :=
  match fit_opt s num_states with
  | Some m =>
      match Model_score m (X s) (lengths s) with
      | Ret score =>
          match fst (dic_sum s m (others s) 0%float) with
          | Ret scores =>
              match truediv scores (len (words s) - 1) with
              | Ret q => Some (m, (score - q)%float)
              | Raise _ => None
              end
          | Raise _ => None
          end
      | Raise _ => None
      end
  | None => None
  end.

Definition dic_events (s : ModelSelector) (num_states : Z) : list event :=
  fit_event s num_states ::
  match fit_opt s num_states with
  | Some m =>
      EvScore m (X s) (lengths s) ::
      match Model_score m (X s) (lengths s) with
      | Ret _ => snd (dic_sum s m (others s) 0%float)
      | Raise _ => []
      end
  | None => []
  end.

(** What the loop of [SelectorDIC.select] keeps: [best_score] stays at
    negative infinity, so every candidate whose DIC score exceeds negative
    infinity replaces the model kept. *)
Definition track_dic (bm : option Model) (c : option (Model * float)) : option Model :=
  match c with
  | Some (m, sc) => if (neg_infinity <? sc)%float then Some m else bm
  | None => bm
  end.

(** The candidates of [SelectorCV.select] without a split: the model
    fitted on [self.X] and its score on [self.X]. *)
Definition nosplit_candidate (s : ModelSelector) (num_states : Z)
  : option (Model * float) :=
  match fit_opt s num_states with
  | Some m =>
      match Model_score m (X s) (lengths s) with
      | Ret score => Some (m, score)
      | Raise _ => None
      end
  | None => None
  end.

(** The flattened representation of the sequences selected by an index
    list: what [combine_sequences] returns for indices in range. *)
Definition fold_data (seqs : list sequence) (idxs : list nat) : Xlengths :=
  let sequences_fold := map (fun idx => nth idx seqs []) idxs in
  (concat sequences_fold, map len sequences_fold).

(** What happens in one fold for a candidate: the fit on the training
    fold fails, or it succeeds and the scoring of the held-out fold fails,
    or both succeed. *)
Inductive fold_outcome : Type :=
| FitFailed
| ScoreFailed (m : Model) (e : exn)
| Scored (m : Model) (v : float).

Definition cv_outcome (seqs : list sequence) (seed num_states : Z)
    (fold : list nat * list nat) : fold_outcome :=
  let tr := fold_data seqs (fst fold) in
  let te := fold_data seqs (snd fold) in
  match GaussianHMM_fit num_states seed (fst tr) (snd tr) with
  | Raise _ => FitFailed
  | Ret m =>
      match Model_score m (fst te) (snd te) with
      | Raise e => ScoreFailed m e
      | Ret v => Scored m v
      end
  end.

Definition cv_fold_events (seqs : list sequence) (seed num_states : Z)
    (fold : list nat * list nat) : list event :=
  let tr := fold_data seqs (fst fold) in
  let te := fold_data seqs (snd fold) in
  EvFit num_states seed (fst tr) (snd tr) ::
  match cv_outcome seqs seed num_states fold with
  | FitFailed => []
  | ScoreFailed m _ | Scored m _ => [EvScore m (fst te) (snd te)]
  end.

(** The folds a candidate gets through: all of them up to and including
    the first one whose scoring fails. *)
Fixpoint processed (seqs : list sequence) (seed num_states : Z)
    (folds : list (list nat * list nat)) : list (list nat * list nat) :=
  match folds with
  | [] => []
  | fold :: rest =>
      fold ::
      match cv_outcome seqs seed num_states fold with
      | ScoreFailed _ _ => []
      | _ => processed seqs seed num_states rest
      end
  end.

(** For each scored fold among those, the fitted model and the mean of the
    candidate's scores so far. *)
Fixpoint cv_means (seqs : list sequence) (seed num_states : Z)
    (folds : list (list nat * list nat)) (scores0 : list float)
  : list (option (Model * float)) :=
  match folds with
  | [] => []
  | fold :: rest =>
      match cv_outcome seqs seed num_states fold with
      | FitFailed => cv_means seqs seed num_states rest scores0
      | ScoreFailed _ _ => []
      | Scored m v =>
          Some (m, np_mean (scores0 ++ [v]))
            :: cv_means seqs seed num_states rest (scores0 ++ [v])
      end
  end.

(** The training data assigned to [self.X, self.lengths] by a candidate,
    in order. *)
Definition cv_trains (seqs : list sequence) (seed num_states : Z)
    (folds : list (list nat * list nat)) : list Xlengths :=
  map (fun fold => fold_data seqs (fst fold)) (processed seqs seed num_states folds).

(** The three folds of a collection of [n] sequences. *)
Definition folds3 (n : nat) : list (list nat * list nat) :=
  KFold_iter n 0 (fold_sizes 3 n).

(** The engine calls of a candidate on the split path. *)
Definition cv_events (seqs : list sequence) (seed : Z)
    (folds : list (list nat * list nat)) (num_states : Z) : list event :=
  flat_map (cv_fold_events seqs seed num_states) (processed seqs seed num_states folds).

(** Folds whose index lists are in range for [seqs]. *)
Definition valid_fold (seqs : list sequence) (fold : list nat * list nat) : Prop :=
  combine_sequences (fst fold) seqs = Ret (fold_data seqs (fst fold))
  /\ combine_sequences (snd fold) seqs = Ret (fold_data seqs (snd fold)).

(** The data of the fits attempted in a log. *)
Definition fit_data (lg : list event) : list Xlengths :=
  flat_map (fun e => match e with EvFit _ _ x l => [(x, l)] | _ => [] end) lg.

(** In the words of the specification: the candidate [k] fits to the model
    [m], the model is scored on the word's own data and on the data of
    every other word, and [sc] is [ownScore - (sum of the scores on all
    other words' data)/(M-1)], with [M] the size of the vocabulary. *)
Definition competitor_score (s : ModelSelector) (m : Model) (w : word) (v : float)
  : Prop :=
  exists xl, dict_get (hwords s) w = Some xl /\ Model_score m (fst xl) (snd xl) = Ret v.

Definition dic_scored (s : ModelSelector) (k : Z) (m : Model) (sc : float) : Prop :=
  GaussianHMM_fit k (random_state s) (X s) (lengths s) = Ret m
  /\ exists ownScore competitorScores,
       Model_score m (X s) (lengths s) = Ret ownScore
       /\ Forall2 (competitor_score s m) (others s) competitorScores
       /\ len (words s) - 1 <> 0
       /\ sc = (ownScore
                - fold_left PrimFloat.add competitorScores 0
                  / Z2float (len (words s) - 1))%float.

End WithEngine.
End Selectors.

(** ** my_recognizer.py *)

Module Recognizer.
Section WithEngine.
Context {E : Engine}.

(** Modelled from the spec: the test set ([SinglesData] of [asl_data], not
    among the sources) is an ordered collection of test items, each
    retrievable by its index as a flattened representation.
    [get_all_Xlengths] is the collection, [get_item_Xlengths] the lookup of
    one index. *)
Definition SinglesData := list Xlengths.

Definition get_all_Xlengths (test_set : SinglesData) : list Xlengths := test_set.

Definition get_item_Xlengths (test_set : SinglesData) (idx : nat) : result Xlengths :=
  match nth_error test_set idx with
  | Some item => Ret item
  | None => Raise KeyError
  end.

(** The local function [compute_log_likelihood] of [recognize]. *)
Definition compute_log_likelihood (model : Model) (X : matrix) (lengths : list Z)
  : float :=
  match Model_score model X lengths with
  | Ret v => v
  | Raise _ => neg_infinity
  end.

(** The body of the [for idx in range(0, len(...))] loop, with the two
    output lists as accumulators. *)
Fixpoint recognize_loop (models : dict Model) (test_set : SinglesData)
    (idxs : list nat) (probabilities : list (dict float)) (guesses : list word)
  : result (list (dict float) * list word) :=
  match idxs with
  | [] => Ret (probabilities, guesses)
  | idx :: rest =>
      match get_item_Xlengths test_set idx with
      | Raise e => Raise e
      | Ret (X, lengths) =>
          let log_likelihood :=
            dict_comprehension
              (fun model => compute_log_likelihood model X lengths) models in
          match max_key (dict_get_float log_likelihood) (dict_keys log_likelihood) with
          | Raise e => Raise e
          | Ret guess =>
              recognize_loop models test_set rest
                (probabilities ++ [log_likelihood]) (guesses ++ [guess])
          end
      end
  end.

Definition recognize (models : dict Model) (test_set : SinglesData)
  : result (list (dict float) * list word) :=
  recognize_loop models test_set
    (seq 0 (List.length (get_all_Xlengths test_set))) [] [].

(** The ScoreRecord of one test item: the dict [log_likelihood] that the
    loop body builds for it. *)
Definition score_record (models : dict Model) (item : Xlengths) : dict float :=
  dict_comprehension
    (fun model => compute_log_likelihood model (fst item) (snd item)) models.

(** The guess computed for a ScoreRecord [r] is [g]. *)
Definition is_guess (r : dict float) (g : word) : Prop :=
  max_key (dict_get_float r) (dict_keys r) = Ret g.

End WithEngine.
End Recognizer.

(** ** Concrete engines and data, for evaluating the code *)

Module Examples.

(** Correctly rounded natural logarithms of the first integers; other
    arguments are not tabulated. *)
Definition log_table (n : Z) : float :=
  match n with
  | 1 => 0
  | 2 => 0x1.62e42fefa39efp-1
  | 3 => 0x1.193ea7aad030bp+0
  | 4 => 0x1.62e42fefa39efp+0
  | _ => nan
  end%float.

(** The sum from left to right divided by the count. *)
Definition mean_list (l : list float) : float :=
  (fold_left PrimFloat.add l 0 / Z2float (len l))%float.

(** An engine given by two tables: a model is identified with its number
    of states, and data with its number of observation vectors. *)
Definition table_engine (fit_table : Z -> Z -> bool)
    (score_table : Z -> Z -> result float) : Engine :=
  {| Model := Z;
     GaussianHMM_fit := fun num_states _ X _ =>
       if fit_table num_states (len X) then Ret num_states
       else Raise EngineError;
     Model_score := fun m X _ => score_table m (len X);
     np_log := log_table;
     np_mean := mean_list |}.

(** A test item with one observation vector. *)
Definition item0 : Xlengths := ([[1%float]], [1]).

(** The scenario of two words whose models score -50 and -75. *)
Definition scenario_engine : Engine :=
  table_engine (fun _ _ => true)
    (fun m n =>
       match m, n with
       | 2, 1 => Ret (-50)%float
       | 3, 1 => Ret (-75)%float
       | _, _ => Raise EngineError
       end).

Definition models_AB : dict Z := [("A"%string, 2); ("B"%string, 3)].

(** The same, but scoring the model of "B" fails. *)
Definition failing_B_engine : Engine :=
  table_engine (fun _ _ => true)
    (fun m n =>
       match m, n with
       | 2, 1 => Ret (-50)%float
       | _, _ => Raise EngineError
       end).

(** A word "A" with one training sequence of one observation, alone in
    its vocabulary; state counts 2 and 3 are searched. *)
Definition one_sequence : list sequence := [[[1%float]]].

Definition selector_A : Selectors.ModelSelector :=
  Selectors.mkSelector [("A"%string, one_sequence)] [("A"%string, item0)]
    one_sequence [[1%float]] [1] "A"%string 3 2 4 14 false.

(** An engine that fits every model and scores none. *)
Definition unscorable_engine : Engine :=
  table_engine (fun _ _ => true) (fun _ _ => Raise EngineError).

(** A vocabulary of two words: "A" with one observation, "B" with two.
    The model with 2 states scores -10 on "A" and -30 on "B", the model
    with 3 states -10 on "A" and -15 on "B". *)
Definition data_B : Xlengths := ([[2%float]; [2%float]], [2]).

Definition selector_AB : Selectors.ModelSelector :=
  Selectors.mkSelector
    [("A"%string, one_sequence); ("B"%string, [[[2%float]; [2%float]]])]
    [("A"%string, item0); ("B"%string, data_B)]
    one_sequence [[1%float]] [1] "A"%string 3 2 4 14 false.

Definition dic_engine : Engine :=
  table_engine (fun _ _ => true)
    (fun m n =>
       match m, n with
       | 2, 1 => Ret (-10)%float
       | 2, 2 => Ret (-30)%float
       | 3, 1 => Ret (-10)%float
       | 3, 2 => Ret (-15)%float
       | _, _ => Raise EngineError
       end).

(** A word "C" with three training sequences of 1, 2 and 3 observations;
    only the state count 2 is searched. *)
Definition three_sequences : list sequence :=
  [ [[1%float]]; [[2%float]; [2%float]]; [[3%float]; [3%float]; [3%float]] ].

Definition data_C : Xlengths :=
  ([[1%float]; [2%float]; [2%float]; [3%float]; [3%float]; [3%float]], [1; 2; 3]).

Definition selector_C : Selectors.ModelSelector :=
  Selectors.mkSelector [("C"%string, three_sequences)] [("C"%string, data_C)]
    three_sequences (fst data_C) (snd data_C) "C"%string 3 2 3 14 false.

(** An engine that fits and scores everything: a model with [m] states
    scores [-(m + n)] on data of [n] observations. *)
Definition total_engine : Engine :=
  table_engine (fun _ _ => true) (fun m n => Ret (- Z2float (m + n))%float).

End Examples.

(** Further instances: the word "A" of [selector_A] with an empty range
    of state counts, the word "A" in a vocabulary whose other word "B"
    has no entry in [hwords], and two more engines. *)
Module MoreExamples.
Import Examples.

Definition selector_empty_range : Selectors.ModelSelector :=
  Selectors.mkSelector [("A"%string, one_sequence)] [("A"%string, item0)]
    one_sequence [[1%float]] [1] "A"%string 3 4 4 14 false.


(** Scoring the model of "A" fails and the model of "B" scores NaN. *)
Definition nan_B_engine : Engine :=
  table_engine (fun _ _ => true)
    (fun m n =>
       match m, n with
       | 3, 1 => Ret nan
       | _, _ => Raise EngineError
       end).

(** An engine that fits every model and scores negative infinity, the
    log-likelihood of data that a model gives probability zero. *)
Definition zero_likelihood_engine : Engine :=
  table_engine (fun _ _ => true) (fun _ _ => Ret neg_infinity).

End MoreExamples.

(** * Properties *)

(** ** The order of floats *)

Module FloatOrder.
Local Open Scope float_scope.

Ltac sf_cases :=
  repeat match goal with
  | |- context [(?a ?= ?b)%Z] => destruct (Z.compare_spec a b)
  | |- context [(?a ?= ?b)%positive] => destruct (Pos.compare_spec a b)
  end; simpl; try congruence; try lia.

Lemma SFcompare_lt_trans x y z :
  SFcompare x y = Some Lt -> SFcompare y z = Some Lt -> SFcompare x z = Some Lt.
Proof.
  destruct x as [[]|[]| |[] mx ex], y as [[]|[]| |[] my ey], z as [[]|[]| |[] mz ez];
    simpl; try congruence;
    change (PosDef.Pos.compare_cont Eq) with Pos.compare; sf_cases.
Qed.

Lemma SFcompare_lt_le_trans x y z :
  SFcompare x y = Some Lt -> SFcompare y z = Some Eq -> SFcompare x z = Some Lt.
Proof.
  destruct x as [[]|[]| |[] mx ex], y as [[]|[]| |[] my ey], z as [[]|[]| |[] mz ez];
    simpl; try congruence;
    change (PosDef.Pos.compare_cont Eq) with Pos.compare; sf_cases.
Qed.

Lemma SFcompare_lt_asym x y :
  SFcompare x y = Some Lt -> SFcompare y x = Some Gt.
Proof.
  destruct x as [[]|[]| |[] mx ex], y as [[]|[]| |[] my ey];
    simpl; try congruence;
    change (PosDef.Pos.compare_cont Eq) with Pos.compare; sf_cases.
Qed.

Lemma ltb_trans x y z : (x <? y) = true -> (y <? z) = true -> (x <? z) = true.
Proof.
  rewrite !ltb_spec. unfold SFltb.
  destruct (SFcompare (Prim2SF x) (Prim2SF y)) as [[]|] eqn:E1; try discriminate.
  destruct (SFcompare (Prim2SF y) (Prim2SF z)) as [[]|] eqn:E2; try discriminate.
  now rewrite (SFcompare_lt_trans _ _ _ E1 E2).
Qed.

Lemma ltb_leb_trans x y z : (x <? y) = true -> (y <=? z) = true -> (x <? z) = true.
Proof.
  rewrite !ltb_spec, leb_spec. unfold SFltb, SFleb.
  destruct (SFcompare (Prim2SF x) (Prim2SF y)) as [[]|] eqn:E1; try discriminate.
  destruct (SFcompare (Prim2SF y) (Prim2SF z)) as [[]|] eqn:E2; try discriminate.
  - now rewrite (SFcompare_lt_le_trans _ _ _ E1 E2).
  - now rewrite (SFcompare_lt_trans _ _ _ E1 E2).
Qed.

Lemma ltb_not_leb x y : (x <? y) = true -> (y <=? x) = false.
Proof.
  rewrite ltb_spec, leb_spec. unfold SFltb, SFleb.
  destruct (SFcompare (Prim2SF x) (Prim2SF y)) as [[]|] eqn:E1; try discriminate.
  now rewrite (SFcompare_lt_asym _ _ E1).
Qed.

Lemma ltb_leb x y : (x <? y) = true -> (x <=? y) = true.
Proof.
  rewrite ltb_spec, leb_spec. unfold SFltb, SFleb.
  destruct (SFcompare (Prim2SF x) (Prim2SF y)) as [[]|]; congruence.
Qed.

Lemma not_leb_not_ltb x y : (x <=? y) = false -> (x <? y) = false.
Proof.
  intros H. destruct (x <? y) eqn:E; [|reflexivity].
  apply ltb_leb in E. congruence.
Qed.

(** Nothing is below [float('-inf')] and nothing above [float('inf')]. *)
Lemma ltb_neg_infinity_r x : (x <? neg_infinity) = false.
Proof.
  rewrite ltb_spec. change (Prim2SF neg_infinity) with (S754_infinity true).
  unfold SFltb. destruct (Prim2SF x) as [[]|[]| |[] m e]; reflexivity.
Qed.

Lemma ltb_infinity_l x : (infinity <? x) = false.
Proof.
  rewrite ltb_spec. change (Prim2SF infinity) with (S754_infinity false).
  unfold SFltb. destruct (Prim2SF x) as [[]|[]| |[] m e]; reflexivity.
Qed.

Lemma is_nan_spec x : is_nan x = true <-> Prim2SF x = S754_nan.
Proof.
  unfold is_nan. rewrite FloatAxioms.eqb_spec. unfold SFeqb.
  destruct (Prim2SF x) as [[]|[]| |[] m e]; simpl; try (split; congruence).
  all: change (PosDef.Pos.compare_cont Eq) with Pos.compare;
    rewrite Z.compare_refl, Pos.compare_refl; simpl; split; congruence.
Qed.

(** A number that does not exceed [float('-inf')] is [float('-inf')]. *)
Lemma not_gt_neg_infinity x :
  is_nan x = false -> (neg_infinity <? x) = false -> x = neg_infinity.
Proof.
  intros Hn H. apply Prim2SF_inj.
  change (Prim2SF neg_infinity) with (S754_infinity true).
  assert (Prim2SF x <> S754_nan) by (rewrite <- is_nan_spec; congruence).
  rewrite ltb_spec in H. change (Prim2SF neg_infinity) with (S754_infinity true) in H.
  unfold SFltb in H.
  destruct (Prim2SF x) as [[]|[]| |[] m e]; simpl in H; congruence.
Qed.

Lemma ltb_irrefl x : (x <? x) = false.
Proof.
  destruct (x <? x) eqn:E; [|reflexivity].
  pose proof (ltb_not_leb _ _ E) as H. apply ltb_leb in E. congruence.
Qed.

Lemma SFcompare_eq_lt_trans x y z :
  SFcompare x y = Some Eq -> SFcompare y z = Some Lt -> SFcompare x z = Some Lt.
Proof.
  destruct x as [[]|[]| |[] mx ex], y as [[]|[]| |[] my ey], z as [[]|[]| |[] mz ez];
    simpl; try congruence;
    change (PosDef.Pos.compare_cont Eq) with Pos.compare; sf_cases.
Qed.

Lemma leb_ltb_trans x y z : (x <=? y) = true -> (y <? z) = true -> (x <? z) = true.
Proof.
  rewrite !ltb_spec, leb_spec. unfold SFltb, SFleb.
  destruct (SFcompare (Prim2SF x) (Prim2SF y)) as [[]|] eqn:E1; try discriminate;
    destruct (SFcompare (Prim2SF y) (Prim2SF z)) as [[]|] eqn:E2; try discriminate;
    intros _ _.
  - now rewrite (SFcompare_eq_lt_trans _ _ _ E1 E2).
  - now rewrite (SFcompare_lt_trans _ _ _ E1 E2).
Qed.

(** At or below a number that is below a bound. *)
Lemma not_ltb_not_leb a b c :
  (a <? b) = true -> (c <? b) = false -> (c <=? a) = false.
Proof.
  intros Hab Hcb. destruct (c <=? a) eqn:Hca; [|reflexivity].
  rewrite (leb_ltb_trans _ _ _ Hca Hab) in Hcb. discriminate.
Qed.

End FloatOrder.

(** ** dict and max *)

Module PyFacts.
Import FloatOrder.

Lemma dict_set_keys_notin {V} (d : dict V) k v :
  ~ In k (dict_keys d) -> dict_set d k v = d ++ [(k, v)].
Proof.
  induction d as [|[k' v'] d IH]; simpl; intros H; [reflexivity|].
  destruct (String.eqb_spec k' k) as [->|Hne].
  - exfalso. apply H. now left.
  - rewrite IH; [reflexivity|]. intros Hin. apply H. now right.
Qed.

Lemma dict_comprehension_acc {V W} (f : V -> W) (d : dict V) (acc : dict W) :
  NoDup (dict_keys acc ++ dict_keys d) ->
  fold_left (fun acc kv => dict_set acc (fst kv) (f (snd kv))) d acc
  = acc ++ map (fun kv => (fst kv, f (snd kv))) d.
Proof.
  revert acc. induction d as [|[k v] d IH]; simpl; intros acc H.
  - now rewrite app_nil_r.
  - rewrite dict_set_keys_notin.
    + rewrite IH.
      * now rewrite <- app_assoc.
      * unfold dict_keys in *. rewrite map_app. simpl. now rewrite <- app_assoc.
    + apply NoDup_remove_2 in H. intros Hin. apply H. apply in_or_app. now left.
Qed.

(** Over a dict, a comprehension keeps the keys and their order. *)
Lemma dict_comprehension_map {V W} (f : V -> W) (d : dict V) :
  NoDup (dict_keys d) ->
  dict_comprehension f d = map (fun kv => (fst kv, f (snd kv))) d.
Proof.
  intros H. unfold dict_comprehension. now rewrite dict_comprehension_acc.
Qed.

Lemma dict_set_not_nil {V} (d : dict V) k v : dict_set d k v <> [].
Proof. destruct d as [|[k' v'] d]; simpl; [|destruct (String.eqb k' k)]; discriminate. Qed.

Lemma dict_set_keys {V} (d : dict V) k v :
  dict_keys (dict_set d k v) = dict_keys d ++ (if in_dec string_dec k (dict_keys d) then [] else [k]).
Proof.
  induction d as [|[k' v'] d IH]; simpl; [reflexivity|].
  destruct (String.eqb_spec k' k) as [->|Hne]; simpl.
  - destruct (string_dec k k); [|congruence]. now rewrite app_nil_r.
  - rewrite IH. destruct (string_dec k' k); [congruence|].
    destruct (in_dec string_dec k (dict_keys d)); reflexivity.
Qed.

Lemma dict_set_NoDup {V} (d : dict V) k v :
  NoDup (dict_keys d) -> NoDup (dict_keys (dict_set d k v)).
Proof.
  intros H. rewrite dict_set_keys.
  destruct (in_dec string_dec k (dict_keys d)).
  - now rewrite app_nil_r.
  - apply NoDup_app; [assumption|repeat constructor; simpl; tauto|].
    intros x Hx [<-|[]]. contradiction.
Qed.

Lemma dict_comprehension_fold_NoDup {V W} (f : V -> W) (d : dict V) (acc : dict W) :
  NoDup (dict_keys acc) ->
  NoDup (dict_keys (fold_left (fun acc kv => dict_set acc (fst kv) (f (snd kv))) d acc)).
Proof.
  revert acc. induction d as [|kv d IH]; simpl; intros acc H; [assumption|].
  apply IH. now apply dict_set_NoDup.
Qed.

(** The keys of a dict built by a comprehension are pairwise distinct. *)
Lemma dict_comprehension_NoDup {V W} (f : V -> W) (d : dict V) :
  NoDup (dict_keys (dict_comprehension f d)).
Proof. apply dict_comprehension_fold_NoDup. constructor. Qed.

Lemma dict_comprehension_fold_not_nil {V W} (f : V -> W) (d : dict V) (acc : dict W) :
  acc <> [] ->
  fold_left (fun acc kv => dict_set acc (fst kv) (f (snd kv))) d acc <> [].
Proof.
  revert acc. induction d as [|kv d IH]; simpl; intros acc H; [assumption|].
  apply IH. apply dict_set_not_nil.
Qed.

Lemma dict_comprehension_not_nil {V W} (f : V -> W) (d : dict V) :
  d <> [] -> dict_comprehension f d <> [].
Proof.
  destruct d as [|kv d]; [congruence|]. intros _. unfold dict_comprehension. simpl.
  apply dict_comprehension_fold_not_nil. discriminate.
Qed.

Lemma dict_get_In {V} (d : dict V) k v :
  dict_get d k = Some v -> In (k, v) d.
Proof.
  induction d as [|[k' v'] d IH]; simpl; [discriminate|].
  destruct (String.eqb_spec k' k) as [->|Hne].
  - intros [= ->]. now left.
  - intros H. right. now apply IH.
Qed.

Lemma dict_get_NoDup {V} (d : dict V) k v :
  NoDup (dict_keys d) -> In (k, v) d -> dict_get d k = Some v.
Proof.
  induction d as [|[k' v'] d IH]; simpl; [tauto|].
  intros H Hin. apply NoDup_cons_iff in H as [Hk H].
  destruct Hin as [[= -> ->]|Hin].
  - now rewrite String.eqb_refl.
  - destruct (String.eqb_spec k' k) as [->|Hne].
    + exfalso. apply Hk. change k with (fst (k, v)). now apply in_map.
    + now apply IH.
Qed.

Lemma dict_get_keys {V} (d : dict V) k :
  In k (dict_keys d) -> exists v, dict_get d k = Some v.
Proof.
  induction d as [|[k' v'] d IH]; simpl; [tauto|].
  destruct (String.eqb_spec k' k) as [->|Hne]; [eauto|].
  intros [?|?]; [congruence|auto].
Qed.

(** What [max] returns: either the first item, which no item exceeds, or a
    later item that exceeds the first, that no earlier item reaches, and
    that no later item exceeds. *)
Lemma max_loop_spec {A} (key : A -> float) (best : A) (rest : list A) :
  let g := max_loop key best rest in
  (g = best /\ forall x, In x rest -> (key best <? key x)%float = false)
  \/ (exists pre post, rest = pre ++ g :: post
        /\ (key best <? key g)%float = true
        /\ (forall x, In x (best :: pre) -> (key g <=? key x)%float = false)
        /\ (forall x, In x post -> (key g <? key x)%float = false)).
Proof.
  revert best. induction rest as [|x tl IH]; intros best; simpl.
  - left. split; [reflexivity|]. intros ? [].
  - destruct (key best <? key x)%float eqn:Hlt.
    + right. destruct (IH x) as [[Hg Hall]|(pre & post & Hrest & Hxg & Hpre & Hpost)].
      * exists [], tl. rewrite Hg. simpl. repeat split; auto.
        intros y [<-|[]]. now apply ltb_not_leb.
      * exists (x :: pre), post. simpl. rewrite Hrest at 1. repeat split; auto.
        -- eapply ltb_trans; eauto.
        -- intros y [<-|Hy]; [|now apply Hpre].
           apply ltb_not_leb. eapply ltb_trans; eauto.
    + destruct (IH best) as [[Hg Hall]|(pre & post & Hrest & Hxg & Hpre & Hpost)].
      * left. split; [assumption|]. intros y [<-|Hy]; auto.
      * right. exists (x :: pre), post. simpl. rewrite Hrest at 1. repeat split; auto.
        intros y [<-|[<-|Hy]].
        -- apply Hpre. now left.
        -- destruct (key (max_loop key best tl) <=? key x)%float eqn:Hle; [|reflexivity].
           rewrite (ltb_leb_trans _ _ _ Hxg Hle) in Hlt. discriminate.
        -- apply Hpre. now right.
Qed.

End PyFacts.

(** ** The recognizer *)

Module RecognizerFacts.
Import FloatOrder PyFacts Recognizer.

Lemma NoDup_split_unique {A} (a : A) l1 l2 l1' l2' :
  NoDup (l1 ++ a :: l2) -> l1 ++ a :: l2 = l1' ++ a :: l2' -> l1 = l1'.
Proof.
  revert l1'. induction l1 as [|x l1 IH]; intros l1' Hnd Heq.
  - destruct l1' as [|y l1']; [reflexivity|].
    simpl in *. injection Heq as <- ->.
    apply NoDup_cons_iff in Hnd as [Hn _]. exfalso. apply Hn.
    apply in_or_app. right. now left.
  - destruct l1' as [|y l1'].
    + simpl in *. injection Heq as -> <-.
      apply NoDup_cons_iff in Hnd as [Hn _]. exfalso. apply Hn.
      apply in_or_app. right. now left.
    + simpl in *. injection Heq as -> Heq. f_equal.
      apply NoDup_cons_iff in Hnd as [_ Hnd]. now apply IH.
Qed.

Lemma Forall2_nth_error_l {A B} (R : A -> B -> Prop) l l' i x :
  Forall2 R l l' -> nth_error l i = Some x ->
  exists y, nth_error l' i = Some y /\ R x y.
Proof.
  intros H. revert i. induction H; intros [|i]; simpl; try discriminate.
  - intros [= ->]. eauto.
  - apply IHForall2.
Qed.

Lemma skipn_nth_error {A} (l : list A) a x :
  nth_error l a = Some x -> skipn a l = x :: skipn (S a) l.
Proof.
  revert a. induction l as [|y l IH]; intros [|a]; simpl; try discriminate.
  - now intros [= ->].
  - intros H. now rewrite (IH _ H).
Qed.

Section WithEngine.
Context {E : Engine}.

Lemma recognize_loop_seq (models : dict Model) (ts : SinglesData) :
  models <> [] ->
  forall n a P G, (a + n <= List.length ts)%nat ->
    exists G',
      recognize_loop models ts (seq a n) P G
      = Ret (P ++ map (score_record models) (firstn n (skipn a ts)), G ++ G')
      /\ Forall2 is_guess (map (score_record models) (firstn n (skipn a ts))) G'.
Proof.
  intros Hne. induction n as [|n IH]; intros a P G Hle; simpl.
  - exists []. rewrite !app_nil_r. split; [reflexivity|constructor].
  - unfold get_item_Xlengths.
    destruct (nth_error ts a) as [[x l]|] eqn:Hnth.
    2:{ apply nth_error_None in Hnth. lia. }
    rewrite (skipn_nth_error _ _ _ Hnth). simpl.
    change (dict_comprehension (fun model => compute_log_likelihood model x l) models)
      with (score_record models (x, l)).
    destruct (max_key (dict_get_float (score_record models (x, l)))
                (dict_keys (score_record models (x, l)))) as [g|e] eqn:Hmax.
    2:{ exfalso. unfold max_key in Hmax.
        destruct (dict_keys (score_record models (x, l))) eqn:Hk; [|discriminate].
        apply map_eq_nil in Hk.
        now apply (dict_comprehension_not_nil _ _ Hne) in Hk. }
    destruct (IH (S a) (P ++ [score_record models (x, l)]) (G ++ [g])) as (G' & Heq & HF);
      [lia|].
    exists (g :: G'). rewrite Heq, <- !app_assoc. simpl. split; [reflexivity|].
    constructor; assumption.
Qed.

(** With at least one model, [recognize] returns the ScoreRecords of the
    test items in order, and a guess for each. *)
Lemma recognize_spec (models : dict Model) (ts : SinglesData) :
  models <> [] ->
  exists guesses,
    recognize models ts = Ret (map (score_record models) ts, guesses)
    /\ Forall2 is_guess (map (score_record models) ts) guesses.
Proof.
  intros Hne. unfold recognize, get_all_Xlengths.
  destruct (recognize_loop_seq models ts Hne (List.length ts) 0 [] []) as (G' & Heq & HF);
    [lia|].
  simpl in *. rewrite firstn_all in *. eauto.
Qed.

(** The guess has an entry that no entry exceeds and that no entry
    before it reaches. *)
Lemma is_guess_spec (r : dict float) (g : word) :
  NoDup (dict_keys r) -> is_guess r g ->
  exists vg, dict_get r g = Some vg
    /\ (forall w v, dict_get r w = Some v -> (vg <? v)%float = false)
    /\ (forall pre post w v, dict_keys r = pre ++ g :: post -> In w pre ->
          dict_get r w = Some v -> (vg <=? v)%float = false).
Proof.
  intros Hnd Hg. unfold is_guess, max_key in Hg.
  destruct (dict_keys r) as [|x tl] eqn:Hk; [discriminate|].
  injection Hg as Hg.
  assert (Hin : forall w v, dict_get r w = Some v ->
            In w (x :: tl) /\ dict_get_float r w = v).
  { intros w v Hw. split.
    - rewrite <- Hk. apply dict_get_In in Hw. change w with (fst (w, v)).
      now apply in_map.
    - unfold dict_get_float. now rewrite Hw. }
  assert (Hgin : In g (x :: tl)).
  { destruct (max_loop_spec (dict_get_float r) x tl) as [[H _]|(pre & post & H & _)];
      rewrite Hg in H.
    - left. now symmetry.
    - right. rewrite H. apply in_or_app. right. now left. }
  destruct (dict_get_keys r g) as [vg Hvg]; [now rewrite Hk|].
  exists vg. split; [assumption|].
  destruct (Hin _ _ Hvg) as [_ Hkg].
  destruct (max_loop_spec (dict_get_float r) x tl)
    as [[Hbest Hall]|(pre & post & Hrest & Hlt & Hpre & Hpost)];
    rewrite Hg in *; rewrite ?Hkg in *.
  - subst x. rewrite Hkg in Hall. split.
    + intros w v Hw. destruct (Hin _ _ Hw) as [[<-|Hwin] Hkw].
      * rewrite Hkg in Hkw. subst v. apply ltb_irrefl.
      * rewrite <- Hkw. now apply Hall.
    + intros pre post w v Hsplit Hw _.
      assert (pre = []) as ->; [|destruct Hw].
      apply (NoDup_split_unique g pre post [] tl); rewrite <- Hsplit;
        [assumption|reflexivity].
  - split.
    + intros w v Hw. destruct (Hin _ _ Hw) as [Hwin Hkw]. rewrite <- Hkw.
      assert (In w ((x :: pre) ++ g :: post)) as Hw'.
      { simpl. rewrite <- Hrest. assumption. }
      apply in_app_or in Hw' as [Hw'|[<-|Hw']].
      * apply not_leb_not_ltb. now apply Hpre.
      * rewrite Hkg. apply ltb_irrefl.
      * now apply Hpost.
    + intros pre' post' w v Hsplit Hw Hv.
      destruct (Hin _ _ Hv) as [_ Hkw]. rewrite <- Hkw.
      assert (pre' = x :: pre) as ->; [|now apply Hpre].
      symmetry. apply (NoDup_split_unique g (x :: pre) post pre' post').
      * simpl. rewrite <- Hrest. assumption.
      * simpl. rewrite <- Hrest. exact Hsplit.
Qed.

End WithEngine.
End RecognizerFacts.

Module RecognizerSpec.
Import FloatOrder PyFacts Recognizer RecognizerFacts Examples MoreExamples.

Section WithEngine.
Context {E : Engine}.

(** C3, amended: in [recognize], over a mapping with distinct words, if
    scoring a word's model on a test item fails, the word's entry in the
    item's ScoreRecord is negative infinity (a score that is returned is
    recorded as it is), the item still gets its record and its guess, and
    the word is the guess only if every model's scoring of the item fails
    or returns negative infinity or NaN; so, when no scoring of the item
    returns NaN, only if every entry of the record is negative
    infinity. *)
Theorem recognize_failed_score
    (models : dict Model) (test_set : SinglesData) (i : nat)
    (X : matrix) (lengths : list Z) (w : word) (m : Model) (e : exn) :
  NoDup (dict_keys models) ->
  In (w, m) models ->
  nth_error test_set i = Some (X, lengths) ->
  Model_score m X lengths = Raise e ->
  exists probabilities guesses r g,
    recognize models test_set = Ret (probabilities, guesses)
    /\ nth_error probabilities i = Some r
    /\ dict_get r w = Some neg_infinity
    /\ (forall w' m' v, In (w', m') models ->
          Model_score m' X lengths = Ret v -> dict_get r w' = Some v)
    /\ nth_error guesses i = Some g
    /\ (g = w ->
        forall w' m' v, In (w', m') models ->
          Model_score m' X lengths = Ret v -> v = neg_infinity \/ is_nan v = true)
    /\ ((forall w' m' v, In (w', m') models ->
           Model_score m' X lengths = Ret v -> is_nan v = false) ->
        g = w -> forall w' v, dict_get r w' = Some v -> v = neg_infinity).
Proof.
  intros Hnd Hin Hi Hfail.
  assert (Hne : models <> []) by (intros ->; destruct Hin).
  destruct (recognize_spec models test_set Hne) as (guesses & Hrec & HF).
  set (r := score_record models (X, lengths)).
  assert (Hr : nth_error (map (score_record models) test_set) i = Some r).
  { rewrite nth_error_map, Hi. reflexivity. }
  destruct (Forall2_nth_error_l _ _ _ _ _ HF Hr) as (g & Hg & Hguess).
  assert (Hrmap : r = map (fun kv => (fst kv, compute_log_likelihood (snd kv) X lengths)) models).
  { unfold r, score_record. now rewrite dict_comprehension_map. }
  assert (Hrnd : NoDup (dict_keys r)) by apply dict_comprehension_NoDup.
  assert (Hentry : forall w' m', In (w', m') models ->
            dict_get r w' = Some (compute_log_likelihood m' X lengths)).
  { intros w' m' Hin'. apply dict_get_NoDup; [assumption|]. rewrite Hrmap.
    apply in_map_iff. exists (w', m'). split; [reflexivity|assumption]. }
  assert (Hw : dict_get r w = Some neg_infinity).
  { rewrite (Hentry w m Hin). unfold compute_log_likelihood. now rewrite Hfail. }
  assert (Hret : forall w' m' v, In (w', m') models ->
            Model_score m' X lengths = Ret v -> dict_get r w' = Some v).
  { intros w' m' v Hin' Hv. rewrite (Hentry w' m' Hin').
    unfold compute_log_likelihood. now rewrite Hv. }
  assert (Hmax : g = w -> forall w' v, dict_get r w' = Some v ->
            (neg_infinity <? v)%float = false).
  { intros Hgw w' v Hv. rewrite Hgw in Hguess.
    destruct (is_guess_spec r w Hrnd Hguess) as (vg & Hvg & Hmax & _).
    assert (vg = neg_infinity) as -> by congruence.
    now apply (Hmax w'). }
  exists (map (score_record models) test_set), guesses, r, g.
  split; [assumption|]. split; [assumption|]. split; [assumption|].
  split; [assumption|]. split; [assumption|]. split.
  - intros Hgw w' m' v Hin' Hv.
    pose proof (Hmax Hgw w' v (Hret w' m' v Hin' Hv)) as Hle.
    destruct (is_nan v) eqn:Hnan; [now right|left].
    now apply not_gt_neg_infinity.
  - intros Hreal Hgw w' v Hv.
    apply not_gt_neg_infinity; [|now apply (Hmax Hgw w')].
    apply dict_get_In in Hv. rewrite Hrmap in Hv.
    apply in_map_iff in Hv as ([w'' m'] & [= <- <-] & Hin').
    simpl. unfold compute_log_likelihood.
    destruct (Model_score m' X lengths) eqn:Hs; [|reflexivity].
    now apply (Hreal w'' m').
Qed.

(** C4, amended: with a non-empty model mapping, [recognize] returns two
    lists as long as the test set; the i-th ScoreRecord is that of the
    i-th test item, and the i-th guess is a word whose entry no entry of
    that record exceeds and no entry before it reaches (the first
    maximum in the record's order, which is the mapping's order). *)
Theorem recognize_argmax (models : dict Model) (test_set : SinglesData) :
  models <> [] ->
  exists probabilities guesses,
    recognize models test_set = Ret (probabilities, guesses)
    /\ List.length probabilities = List.length test_set
    /\ List.length guesses = List.length test_set
    /\ forall i item, nth_error test_set i = Some item ->
         exists g vg,
           nth_error probabilities i = Some (score_record models item)
           /\ nth_error guesses i = Some g
           /\ dict_get (score_record models item) g = Some vg
           /\ (forall w v, dict_get (score_record models item) w = Some v ->
                 (vg <? v)%float = false)
           /\ (forall pre post w v,
                 dict_keys (score_record models item) = pre ++ g :: post ->
                 In w pre ->
                 dict_get (score_record models item) w = Some v ->
                 (vg <=? v)%float = false)
           /\ (NoDup (dict_keys models) ->
                 dict_keys (score_record models item) = dict_keys models).
Proof.
  intros Hne.
  destruct (recognize_spec models test_set Hne) as (guesses & Hrec & HF).
  exists (map (score_record models) test_set), guesses.
  split; [assumption|]. split; [apply length_map|].
  split; [apply Forall2_length in HF; now rewrite length_map in HF|].
  intros i item Hi.
  assert (Hr : nth_error (map (score_record models) test_set) i
               = Some (score_record models item)).
  { rewrite nth_error_map, Hi. reflexivity. }
  destruct (Forall2_nth_error_l _ _ _ _ _ HF Hr) as (g & Hg & Hguess).
  destruct (is_guess_spec _ g (dict_comprehension_NoDup _ _) Hguess)
    as (vg & Hvg & Hmax & Hfirst).
  exists g, vg. repeat split; try assumption.
  intros Hnd. unfold score_record. rewrite dict_comprehension_map by assumption.
  unfold dict_keys. rewrite map_map. reflexivity.
Qed.

(** C10: with an empty model mapping and at least one test item,
    [recognize] raises the [ValueError] of [max] over an empty
    ScoreRecord; it returns no lists. *)
Theorem recognize_no_models_raises (test_set : SinglesData) :
  test_set <> [] -> recognize [] test_set = Raise ValueError.
Proof.
  destruct test_set as [|[X lengths] rest]; [congruence|]. reflexivity.
Qed.

End WithEngine.

Lemma recognize_failed_score_witness :
  exists probabilities guesses r g,
    recognize (E := failing_B_engine) models_AB [item0] = Ret (probabilities, guesses)
    /\ nth_error probabilities 0 = Some r
    /\ dict_get r "B"%string = Some neg_infinity
    /\ (forall w' m' v, In (w', m') models_AB ->
          @Model_score failing_B_engine m' [[1%float]] [1] = Ret v ->
          dict_get r w' = Some v)
    /\ nth_error guesses 0 = Some g
    /\ (g = "B"%string ->
        forall w' m' v, In (w', m') models_AB ->
          @Model_score failing_B_engine m' [[1%float]] [1] = Ret v ->
          v = neg_infinity \/ is_nan v = true)
    /\ ((forall w' m' v, In (w', m') models_AB ->
           @Model_score failing_B_engine m' [[1%float]] [1] = Ret v ->
           is_nan v = false) ->
        g = "B"%string -> forall w' v, dict_get r w' = Some v -> v = neg_infinity).
Proof.
  apply (recognize_failed_score (E := failing_B_engine) models_AB [item0] 0
           [[1%float]] [1] "B"%string 3 EngineError).
  - repeat constructor; simpl; intuition discriminate.
  - simpl; auto.
  - reflexivity.
  - reflexivity.
Defined.

(** C3 as stated fails: scoring the model of "A" fails, the model of "B"
    scores NaN, which is not negative infinity, and "A" is the guess. *)
Lemma recognize_failed_score_counterexample :
  ~ (forall probabilities guesses r g,
       recognize (E := nan_B_engine) models_AB [item0] = Ret (probabilities, guesses) ->
       nth_error probabilities 0 = Some r ->
       nth_error guesses 0 = Some g ->
       @Model_score nan_B_engine 2 [[1%float]] [1] = Raise EngineError ->
       g = "A"%string ->
       forall w' v, dict_get r w' = Some v -> v = neg_infinity).
Proof.
  intros H.
  specialize (H [[("A"%string, neg_infinity); ("B"%string, nan)]] ["A"%string]
                [("A"%string, neg_infinity); ("B"%string, nan)] "A"%string
                eq_refl eq_refl eq_refl eq_refl eq_refl "B"%string nan eq_refl).
  apply (f_equal is_nan) in H. discriminate H.
Qed.

Lemma recognize_argmax_witness :
  exists probabilities guesses,
    recognize (E := scenario_engine) models_AB [item0; item0] = Ret (probabilities, guesses)
    /\ List.length probabilities = 2%nat
    /\ List.length guesses = 2%nat
    /\ forall i item, nth_error [item0; item0] i = Some item ->
         exists g vg,
           nth_error probabilities i = Some (score_record (E := scenario_engine) models_AB item)
           /\ nth_error guesses i = Some g
           /\ dict_get (score_record (E := scenario_engine) models_AB item) g = Some vg
           /\ (forall w v, dict_get (score_record (E := scenario_engine) models_AB item) w = Some v ->
                 (vg <? v)%float = false)
           /\ (forall pre post w v,
                 dict_keys (score_record (E := scenario_engine) models_AB item) = pre ++ g :: post ->
                 In w pre ->
                 dict_get (score_record (E := scenario_engine) models_AB item) w = Some v ->
                 (vg <=? v)%float = false)
           /\ (NoDup (dict_keys models_AB) ->
                 dict_keys (score_record (E := scenario_engine) models_AB item) = dict_keys models_AB).
Proof.
  apply (recognize_argmax (E := scenario_engine) models_AB [item0; item0]).
  discriminate.
Defined.

(** The concrete scenario: scores -50 and -75 give the guess "A". *)
Example recognize_scenario :
  recognize (E := scenario_engine) models_AB [item0; item0]
  = Ret ([[("A", -50); ("B", -75)]; [("A", -50); ("B", -75)]]%float%string,
         ["A"; "A"]%string).
Proof. reflexivity. Qed.

(** C4 as stated fails: with no model and one test item, no lists are
    returned. *)
Lemma recognize_returns_lists_counterexample :
  ~ exists probabilities guesses,
      recognize (E := scenario_engine) [] [item0] = Ret (probabilities, guesses)
      /\ List.length probabilities = 1%nat /\ List.length guesses = 1%nat.
Proof. intros (p & g & H & _). discriminate H. Qed.

Lemma recognize_no_models_raises_witness :
  recognize (E := scenario_engine) [] [item0] = Raise ValueError.
Proof.
  apply (recognize_no_models_raises (E := scenario_engine) [item0]). discriminate.
Defined.

End RecognizerSpec.

(** ** The selectors *)

Module SelectorFacts.
Import FloatOrder PyFacts Selectors.

Lemma range_In a b k : In k (range a b) <-> a <= k < b.
Proof.
  unfold range. rewrite in_map_iff. split.
  - intros (i & <- & Hi). apply in_seq in Hi. lia.
  - intros H. exists (Z.to_nat (k - a)). split; [lia|]. apply in_seq. lia.
Qed.

Lemma range_nil a b : b <= a -> range a b = [].
Proof. intros H. unfold range. replace (Z.to_nat (b - a)) with 0%nat by lia. reflexivity. Qed.

Lemma range_cons a b : a < b -> range a b = a :: range (a + 1) b.
Proof.
  intros H. unfold range.
  replace (Z.to_nat (b - a)) with (S (Z.to_nat (b - (a + 1)))) by lia.
  simpl. f_equal; [lia|]. rewrite <- seq_shift, map_map.
  apply map_ext. intros i. lia.
Qed.

(** The state counts before and after [k] in the range. *)
Lemma range_split a b l1 k l2 :
  range a b = l1 ++ k :: l2 -> l2 = range (k + 1) b /\ a <= k < b.
Proof.
  revert a. induction l1 as [|x l1 IH]; intros a Heq.
  - destruct (Z_lt_le_dec a b) as [Hlt|Hle].
    + rewrite (range_cons a b Hlt) in Heq. simpl in Heq. injection Heq as <- <-.
      split; [reflexivity|lia].
    + rewrite (range_nil a b Hle) in Heq. discriminate.
  - destruct (Z_lt_le_dec a b) as [Hlt|Hle].
    + rewrite (range_cons a b Hlt) in Heq. simpl in Heq. injection Heq as <- Heq.
      destruct (IH _ Heq) as [-> Hk]. split; [reflexivity|lia].
    + rewrite (range_nil a b Hle) in Heq. discriminate.
Qed.

Lemma range_split_l a b l1 k l2 :
  range a b = l1 ++ k :: l2 -> l1 = range a k.
Proof.
  revert a. induction l1 as [|x l1 IH]; intros a Heq.
  - destruct (Z_lt_le_dec a b) as [Hlt|Hle].
    + rewrite (range_cons a b Hlt) in Heq. simpl in Heq. injection Heq as <- _.
      symmetry. apply range_nil. lia.
    + rewrite (range_nil a b Hle) in Heq. discriminate.
  - destruct (Z_lt_le_dec a b) as [Hlt|Hle].
    + rewrite (range_cons a b Hlt) in Heq. simpl in Heq. injection Heq as <- Heq.
      pose proof (range_split _ _ _ _ _ Heq) as [_ Hk].
      rewrite (IH _ Heq). symmetry. apply range_cons. lia.
    + rewrite (range_nil a b Hle) in Heq. discriminate.
Qed.

(** *** Tracking the best candidate *)

Section Track.
Context {E : Engine}.
Variable better : float -> float -> bool.
Hypothesis better_irrefl : forall a, better a a = false.
Hypothesis better_trans :
  forall a b c, better a b = true -> better b c = true -> better a c = true.

Lemma better_asym a b : better a b = true -> better b a = false.
Proof using better_irrefl better_trans.
  intros H. destruct (better b a) eqn:H'; [|reflexivity].
  rewrite <- (better_irrefl a). symmetry. eauto.
Qed.

(** No candidate is better than the final best score, which is the
    initial one or better than it. *)
Lemma track_fold_best cs : forall st,
  let st' := fold_left (track better) cs st in
  (fst st' = fst st \/ better (fst st') (fst st) = true)
  /\ forall m sc, In (Some (m, sc)) cs -> better sc (fst st') = false.
Proof using better_irrefl better_trans.
  induction cs as [|c cs IH]; intros st; simpl.
  - split; [now left|]. intros ? ? [].
  - destruct (IH (track better st c)) as [Hfst Hall].
    assert (Hstep : fst (track better st c) = fst st
                    \/ better (fst (track better st c)) (fst st) = true).
    { destruct c as [[m sc]|]; simpl; [|now left].
      destruct (better sc (fst st)) eqn:Hb; simpl; [now right|now left]. }
    split.
    + destruct Hfst as [->|Hfst]; [assumption|].
      destruct Hstep as [<-|Hstep]; [now right|]. right. eauto.
    + intros m sc [->|Hin]; [|now apply (Hall m)].
      simpl in Hfst |- *. destruct (better sc (fst st)) eqn:Hb; simpl in Hfst.
      * destruct Hfst as [Hfst|Hfst].
        -- rewrite Hfst. apply better_irrefl.
        -- now apply better_asym.
      * destruct Hfst as [Hfst|Hfst]; [now rewrite Hfst|].
        destruct (better sc (fst (fold_left (track better) cs st))) eqn:Hb';
          [|reflexivity].
        rewrite (better_trans _ _ _ Hb' Hfst) in Hb. discriminate.
Qed.

(** The final state is the initial one, or a candidate that is better
    than the initial score. *)
Lemma track_fold_from cs : forall st,
  let st' := fold_left (track better) cs st in
  st' = st
  \/ exists m sc, In (Some (m, sc)) cs /\ st' = (sc, Some m)
                  /\ better sc (fst st) = true.
Proof using better_trans.
  induction cs as [|c cs IH]; intros st; simpl; [now left|].
  destruct (IH (track better st c)) as [Heq|(m & sc & Hin & Heq & Hb)].
  - destruct c as [[m sc]|]; simpl in *; [|now left].
    destruct (better sc (fst st)) eqn:Hb; [|now left].
    right. exists m, sc. auto.
  - right. exists m, sc. split; [now right|]. split; [assumption|].
    destruct c as [[m' sc']|]; simpl in *; [|assumption].
    destruct (better sc' (fst st)) eqn:Hb'; simpl in *; eauto.
Qed.

Lemma track_fold_none cs st :
  (forall m sc, In (Some (m, sc)) cs -> better sc (fst st) = false) ->
  fold_left (track better) cs st = st.
Proof using better_trans.
  intros H. destruct (track_fold_from cs st) as [Heq|(m & sc & Hin & _ & Hb)];
    [assumption|].
  rewrite (H _ _ Hin) in Hb. discriminate.
Qed.

Lemma track_fold_some cs st m sc :
  In (Some (m, sc)) cs -> better sc (fst st) = true ->
  exists m' sc', In (Some (m', sc')) cs
                 /\ fold_left (track better) cs st = (sc', Some m').
Proof using better_irrefl better_trans.
  intros Hin Hb.
  destruct (track_fold_from cs st) as [Heq|(m' & sc' & Hin' & Heq & _)]; [|eauto].
  destruct (track_fold_best cs st) as [_ Hall].
  specialize (Hall _ _ Hin). simpl in Hall. rewrite Heq in Hall. congruence.
Qed.

(** The final best candidate is better than the best before it, and
    nothing after it is better. *)
Lemma track_fold_split cs : forall st m,
  snd (fold_left (track better) cs st) = Some m ->
  snd st = None ->
  exists l1 sc l2,
    cs = l1 ++ Some (m, sc) :: l2
    /\ fst (fold_left (track better) cs st) = sc
    /\ better sc (fst (fold_left (track better) l1 st)) = true
    /\ forall m' sc', In (Some (m', sc')) l2 -> better sc' sc = false.
Proof using better_irrefl better_trans.
  induction cs as [|c cs IH] using rev_ind; intros st m Hres Hst.
  - simpl in Hres. congruence.
  - rewrite fold_left_app in Hres |- *. cbn [fold_left] in *.
    destruct c as [[m0 sc0]|]; cbn [track] in *.
    + destruct (better sc0 (fst (fold_left (track better) cs st))) eqn:Hb.
      * cbn [fst snd] in *. injection Hres as ->.
        exists cs, sc0, []. split; [reflexivity|]. split; [reflexivity|].
        split; [assumption|]. intros ? ? [].
      * destruct (IH st m Hres Hst) as (l1 & sc & l2 & -> & Hsc & Hbetter & Hafter).
        exists l1, sc, (l2 ++ [Some (m0, sc0)]).
        split; [now rewrite <- app_assoc|]. split; [assumption|].
        split; [assumption|].
        intros m' sc' Hin. apply in_app_or in Hin as [Hin|[[= -> ->]|[]]]; [eauto|].
        now rewrite <- Hsc.
    + destruct (IH st m Hres Hst) as (l1 & sc & l2 & -> & Hsc & Hbetter & Hafter).
      exists l1, sc, (l2 ++ [None]).
      split; [now rewrite <- app_assoc|]. split; [assumption|].
      split; [assumption|].
      intros m' sc' Hin. apply in_app_or in Hin as [Hin|[Hin|[]]]; [eauto|discriminate].
Qed.
End Track.

Lemma lower_irrefl a : lower a a = false.
Proof. apply ltb_irrefl. Qed.
Lemma lower_trans a b c : lower a b = true -> lower b c = true -> lower a c = true.
Proof. unfold lower. apply ltb_trans. Qed.
Lemma higher_irrefl a : higher a a = false.
Proof. apply ltb_irrefl. Qed.
Lemma higher_trans a b c : higher a b = true -> higher b c = true -> higher a c = true.
Proof. unfold higher. intros H1 H2. eapply ltb_trans; eauto. Qed.

Section WithEngine.
Context {E : Engine}.

(** *** The monad *)

Lemma base_model_run (k : Z) (f : Frame) :
  base_model k f = (Ret (fit_opt (self f) k), add_log f [fit_event (self f) k]).
Proof.
  unfold base_model, try_except, bind, call_fit, emit, lift, get_self, ret,
    fit_opt, fit_event, add_log. simpl.
  destruct (GaussianHMM_fit k _ _ _); reflexivity.
Qed.

Lemma add_log_nil f : add_log f [] = f.
Proof. destruct f. unfold add_log. simpl. now rewrite app_nil_r. Qed.

Lemma add_log_app f l1 l2 : add_log (add_log f l1) l2 = add_log f (l1 ++ l2).
Proof. unfold add_log. simpl. now rewrite app_assoc. Qed.

(** *** SelectorBIC *)

Lemma SelectorBIC_body_run k f :
  SelectorBIC_body k f =
  (Ret tt,
   let st := track lower (best_score f, best_model f) (bic_candidate (self f) k) in
   mkFrame (self f) (log f ++ full_data_events (self f) k) (fst st) (snd st) (scores f)).
Proof.
  unfold SelectorBIC_body, try_except, bind. rewrite base_model_run.
  unfold bic_candidate, full_data_events.
  destruct (fit_opt (self f) k) as [m|]; simpl.
  2:{ reflexivity. }
  unfold lift.
  destruct (Model_score m (X (self f)) (lengths (self f))) as [logL|e]; simpl.
  2:{ rewrite <- app_assoc. reflexivity. }
  destruct (shape1 (X (self f))) as [d|e]; simpl.
  2:{ rewrite <- app_assoc. reflexivity. }
  unfold lower.
  destruct (BIC k d logL (np_log (len (X (self f)))) <? best_score f)%float;
    simpl; rewrite <- app_assoc; reflexivity.
Qed.

Lemma bic_loop_run ks : forall f,
  for_each ks SelectorBIC_body f =
  (Ret tt,
   let st := fold_left (track lower) (map (bic_candidate (self f)) ks)
               (best_score f, best_model f) in
   mkFrame (self f) (log f ++ flat_map (full_data_events (self f)) ks)
           (fst st) (snd st) (scores f)).
Proof.
  induction ks as [|k ks IH]; intros f; simpl.
  - unfold ret. destruct f; simpl. now rewrite app_nil_r.
  - unfold bind. rewrite SelectorBIC_body_run. rewrite IH. simpl.
    rewrite <- app_assoc, <- surjective_pairing. reflexivity.
Qed.

(** [SelectorBIC.select] returns the model tracked over the candidates of
    the range, leaves the instance as it is, and logs the engine calls of
    the candidates in order. *)
Lemma SelectorBIC_select_run s lg :
  select SelectorBIC s lg =
  (Ret (snd (fold_left (track lower)
               (map (bic_candidate s) (range (min_n_components s) (max_n_components s)))
               (infinity, None))),
   s,
   lg ++ flat_map (full_data_events s) (range (min_n_components s) (max_n_components s))).
Proof.
  unfold select, select_body, SelectorBIC_select.
  unfold bind at 1. simpl. unfold bind at 1. simpl. unfold bind at 1. simpl.
  unfold bind at 1.
  rewrite bic_loop_run. simpl. reflexivity.
Qed.

End WithEngine.
End SelectorFacts.

Module DICFacts.
Import FloatOrder PyFacts Selectors SelectorFacts.

Section WithEngine.
Context {E : Engine}.

Lemma dic_competitor_run s m acc w f :
  SelectorDIC_competitor s m acc w f =
  match dict_getitem (hwords s) w with
  | Raise e => (Raise e, f)
  | Ret xl =>
      (match Model_score m (fst xl) (snd xl) with
       | Ret v => Ret (acc + v)%float
       | Raise e => Raise e
       end, add_log f [EvScore m (fst xl) (snd xl)])
  end.
Proof.
  unfold SelectorDIC_competitor, bind, lift, call_score, emit, ret, add_log. simpl.
  destruct (dict_getitem (hwords s) w) as [xl|e]; simpl; [|reflexivity].
  destruct (Model_score m (fst xl) (snd xl)); reflexivity.
Qed.

Lemma dic_sum_run s m ws : forall acc f,
  for_fold ws (SelectorDIC_competitor s m) acc f
  = (fst (dic_sum s m ws acc), add_log f (snd (dic_sum s m ws acc))).
Proof.
  induction ws as [|w ws IH]; intros acc f; simpl.
  - unfold ret. now rewrite add_log_nil.
  - unfold bind at 1. rewrite dic_competitor_run.
    destruct (dict_getitem (hwords s) w) as [xl|e]; simpl.
    2:{ now rewrite add_log_nil. }
    destruct (Model_score m (fst xl) (snd xl)) as [v|e]; simpl.
    2:{ reflexivity. }
    rewrite IH.
    destruct (dic_sum s m ws (acc + v)) as [r evs]. simpl.
    now rewrite add_log_app.
Qed.

Lemma dic_sum_scores_only s m ws : forall acc,
  attempted (snd (dic_sum s m ws acc)) = [].
Proof.
  induction ws as [|w ws IH]; intros acc; simpl; [reflexivity|].
  destruct (dict_getitem (hwords s) w) as [xl|e]; [|reflexivity].
  destruct (Model_score m (fst xl) (snd xl)) as [v|e]; [|reflexivity].
  specialize (IH (acc + v)%float).
  destruct (dic_sum s m ws (acc + v)) as [r evs]. simpl in *. assumption.
Qed.

Lemma dic_body_run k f :
  best_score f = neg_infinity ->
  SelectorDIC_body (len (words (self f))) k f =
  (Ret tt,
   mkFrame (self f) (log f ++ dic_events (self f) k) (best_score f)
           (track_dic (best_model f) (dic_candidate (self f) k)) (scores f)).
Proof.
  intros Hbs.
  unfold SelectorDIC_body, try_except, bind. rewrite base_model_run.
  unfold dic_candidate, dic_events.
  destruct (fit_opt (self f) k) as [m|]; simpl.
  2:{ reflexivity. }
  unfold lift.
  destruct (Model_score m (X (self f)) (lengths (self f))) as [score|e]; simpl.
  2:{ rewrite <- app_assoc. reflexivity. }
  rewrite dic_sum_run. fold (others (self f)).
  destruct (dic_sum (self f) m (others (self f)) 0) as [[scores|e] evs]; simpl.
  2:{ unfold ret, add_log. simpl. rewrite <- !app_assoc. reflexivity. }
  destruct (truediv scores (len (words (self f)) - 1)) as [q|e]; simpl.
  2:{ unfold ret, add_log. simpl. rewrite <- !app_assoc. reflexivity. }
  unfold get, set_best_model, ret, add_log. simpl. rewrite Hbs.
  destruct (neg_infinity <? score - q)%float; simpl; rewrite <- !app_assoc; reflexivity.
Qed.

Lemma dic_loop_run ks : forall f,
  best_score f = neg_infinity ->
  for_each ks (SelectorDIC_body (len (words (self f)))) f =
  (Ret tt,
   mkFrame (self f) (log f ++ flat_map (dic_events (self f)) ks) (best_score f)
           (fold_left track_dic (map (dic_candidate (self f)) ks) (best_model f))
           (scores f)).
Proof.
  induction ks as [|k ks IH]; intros f Hbs; simpl.
  - unfold ret. destruct f; simpl. now rewrite app_nil_r.
  - unfold bind. rewrite dic_body_run by assumption.
    specialize (IH (mkFrame (self f) (log f ++ dic_events (self f) k) (best_score f)
                      (track_dic (best_model f) (dic_candidate (self f) k)) (scores f))).
    simpl in IH. rewrite IH by assumption. rewrite <- app_assoc. reflexivity.
Qed.

(** [SelectorDIC.select] returns the model of the last candidate whose
    DIC score exceeds negative infinity, leaves the instance as it is,
    and logs the engine calls of the candidates in order. *)
Lemma SelectorDIC_select_run s lg :
  select SelectorDIC s lg =
  (Ret (fold_left track_dic
          (map (dic_candidate s) (range (min_n_components s) (max_n_components s)))
          None),
   s,
   lg ++ flat_map (dic_events s) (range (min_n_components s) (max_n_components s))).
Proof.
  unfold select, select_body, SelectorDIC_select.
  unfold bind at 1. simpl. unfold bind at 1. simpl. unfold bind at 1. simpl.
  unfold bind at 1.
  pose proof (dic_loop_run (range (min_n_components s) (max_n_components s))
                (mkFrame s lg neg_infinity None [])) as H.
  simpl in H. rewrite H by reflexivity. reflexivity.
Qed.

End WithEngine.
End DICFacts.

Module CVFacts.
Import FloatOrder PyFacts Selectors SelectorFacts.

(** *** The folds *)

Lemma select_sequences_valid (seqs : list sequence) (idxs : list nat) :
  (forall i, In i idxs -> (i < List.length seqs)%nat) ->
  select_sequences idxs seqs = Ret (map (fun idx => nth idx seqs []) idxs).
Proof.
  induction idxs as [|i idxs IH]; intros H; simpl; [reflexivity|].
  destruct (nth_error seqs i) as [sq|] eqn:Hnth.
  - rewrite IH by (intros; apply H; now right).
    now rewrite (nth_error_nth _ _ _ Hnth).
  - apply nth_error_None in Hnth. specialize (H i (or_introl eq_refl)). lia.
Qed.

Lemma combine_sequences_valid (seqs : list sequence) (idxs : list nat) :
  (forall i, In i idxs -> (i < List.length seqs)%nat) ->
  combine_sequences idxs seqs = Ret (fold_data seqs idxs).
Proof.
  intros H. unfold combine_sequences. now rewrite select_sequences_valid.
Qed.

(** The three folds of [n >= 3] samples: three consecutive non-empty test
    blocks that cover the indices; each training fold is the rest. *)
Lemma folds3_shape (n : nat) :
  (3 <= n)%nat ->
  exists a b c,
    (0 < a /\ 0 < b /\ 0 < c /\ a + b + c = n)%nat
    /\ folds3 n =
       [ (seq 0 0 ++ seq a (n - a), seq 0 a);
         (seq 0 a ++ seq (a + b) (n - (a + b)), seq a b);
         (seq 0 (a + b) ++ seq (a + b + c) (n - (a + b + c)), seq (a + b) c) ].
Proof.
  intros Hn. unfold folds3, fold_sizes.
  pose proof (Nat.div_mod_eq n 3) as Hdm.
  pose proof (Nat.mod_upper_bound n 3 ltac:(lia)) as Hmod.
  exists (n / 3 + (if 0 <? n mod 3 then 1 else 0))%nat,
         (n / 3 + (if 1 <? n mod 3 then 1 else 0))%nat,
         (n / 3 + (if 2 <? n mod 3 then 1 else 0))%nat.
  split; [|reflexivity].
  assert (1 <= n / 3)%nat by (apply Nat.div_le_lower_bound; lia).
  destruct (Nat.ltb_spec 0 (n mod 3)), (Nat.ltb_spec 1 (n mod 3)),
    (Nat.ltb_spec 2 (n mod 3)); lia.
Qed.

Lemma folds3_valid (n : nat) (fold : list nat * list nat) :
  (3 <= n)%nat -> In fold (folds3 n) ->
  (forall i, In i (fst fold) -> (i < n)%nat)
  /\ (forall i, In i (snd fold) -> (i < n)%nat)
  /\ (List.length (fst fold) < n)%nat.
Proof.
  intros Hn Hin. destruct (folds3_shape n Hn) as (a & b & c & Habc & Heq).
  rewrite Heq in Hin.
  destruct Hin as [<-|[<-|[<-|[]]]]; simpl; repeat split;
    try (intros i Hi; try apply in_app_or in Hi as [Hi|Hi]; apply in_seq in Hi; lia);
    rewrite ?length_app, !length_seq; lia.
Qed.

Lemma folds3_not_nil (n : nat) : (3 <= n)%nat -> folds3 n <> [].
Proof.
  intros Hn. destruct (folds3_shape n Hn) as (a & b & c & _ & ->). discriminate.
Qed.

Lemma KFold_split_3 (n : nat) : (3 <= n)%nat -> KFold_split 3 n = Ret (folds3 n).
Proof.
  intros Hn. unfold KFold_split. destruct (Nat.ltb_spec n 3); [lia|reflexivity].
Qed.

Section WithEngine.
Context {E : Engine}.

Lemma folds3_valid_fold (seqs : list sequence) :
  (3 <= List.length seqs)%nat -> Forall (valid_fold seqs) (folds3 (List.length seqs)).
Proof.
  intros Hn. apply Forall_forall. intros fold Hin.
  destruct (folds3_valid _ fold Hn Hin) as (Htr & Hte & _).
  split; now apply combine_sequences_valid.
Qed.

Lemma with_X_lengths_twice s a b :
  with_X_lengths (with_X_lengths s a) b = with_X_lengths s b.
Proof. reflexivity. Qed.

(** One fold. *)
Lemma cv_fold_run k fold f :
  valid_fold (sequences (self f)) fold ->
  SelectorCV_fold k fold f =
  let seqs := sequences (self f) in
  let seed := random_state (self f) in
  let s' := with_X_lengths (self f) (fold_data seqs (fst fold)) in
  let lg' := log f ++ cv_fold_events seqs seed k fold in
  match cv_outcome seqs seed k fold with
  | FitFailed => (Ret tt, mkFrame s' lg' (best_score f) (best_model f) (scores f))
  | ScoreFailed m e => (Raise e, mkFrame s' lg' (best_score f) (best_model f) (scores f))
  | Scored m v =>
      let st := track higher (best_score f, best_model f)
                  (Some (m, np_mean (scores f ++ [v]))) in
      (Ret tt, mkFrame s' lg' (fst st) (snd st) (scores f ++ [v]))
  end.
Proof.
  intros [Htr Hte]. unfold SelectorCV_fold.
  unfold bind at 1. unfold get_self at 1. cbv beta iota.
  unfold bind at 1. unfold lift at 1. rewrite Htr.
  unfold bind at 1. unfold set_X_lengths at 1. cbv beta iota.
  unfold bind at 1. unfold lift at 1. rewrite Hte.
  unfold bind at 1. rewrite base_model_run.
  unfold cv_outcome, cv_fold_events, cv_outcome, fit_opt, fit_event. simpl.
  destruct (GaussianHMM_fit k _ _ _) as [m|e]; simpl.
  2:{ reflexivity. }
  unfold bind, call_score, emit, lift, get, set_scores, set_best_score,
    set_best_model, ret, add_log. simpl.
  destruct (Model_score m _ _) as [v|e]; simpl.
  2:{ rewrite <- app_assoc. reflexivity. }
  unfold higher.
  destruct (best_score f <? np_mean (scores f ++ [v]))%float; simpl;
    rewrite <- app_assoc; reflexivity.
Qed.

(** The loop over the folds for one candidate. *)
Lemma cv_folds_run k folds : forall f,
  Forall (valid_fold (sequences (self f))) folds ->
  exists r sc,
    for_each folds (SelectorCV_fold k) f =
    let seqs := sequences (self f) in
    let seed := random_state (self f) in
    let st := fold_left (track higher) (cv_means seqs seed k folds (scores f))
                (best_score f, best_model f) in
    (r,
     mkFrame (fold_left with_X_lengths (cv_trains seqs seed k folds) (self f))
             (log f ++ cv_events seqs seed folds k)
             (fst st) (snd st) sc).
Proof.
  unfold cv_events.
  induction folds as [|fold folds IH]; intros f Hv.
  - exists (Ret tt), (scores f). simpl. unfold ret. destruct f; simpl.
    now rewrite app_nil_r.
  - apply Forall_cons_iff in Hv as [Hfd Hv].
    simpl for_each. unfold bind at 1. rewrite (cv_fold_run _ _ _ Hfd).
    cbv zeta. unfold cv_trains. simpl processed. simpl cv_means.
    destruct (cv_outcome (sequences (self f)) (random_state (self f)) k fold)
      as [|m e|m v] eqn:Hout.
    + match goal with |- context [for_each folds _ ?f1] =>
        destruct (IH f1) as (r & sc & Heq); [exact Hv|] end.
      exists r, sc. rewrite Heq. cbv zeta. simpl. unfold cv_trains.
      rewrite <- app_assoc. reflexivity.
    + exists (Raise e), (scores f). simpl. rewrite app_nil_r. reflexivity.
    + match goal with |- context [for_each folds _ ?f1] =>
        destruct (IH f1) as (r & sc & Heq); [exact Hv|] end.
      exists r, sc. rewrite Heq. cbv zeta. simpl. unfold cv_trains.
      rewrite <- app_assoc, <- surjective_pairing. reflexivity.
Qed.


Lemma fold_left_with_X_lengths_fields l : forall s,
  let s' := fold_left with_X_lengths l s in
  words s' = words s /\ hwords s' = hwords s /\ sequences s' = sequences s
  /\ this_word s' = this_word s /\ n_constant s' = n_constant s
  /\ min_n_components s' = min_n_components s
  /\ max_n_components s' = max_n_components s
  /\ random_state s' = random_state s /\ verbose s' = verbose s.
Proof.
  induction l as [|xl l IH]; intros s; simpl; [repeat split|].
  apply (IH (with_X_lengths s xl)).
Qed.

Lemma with_X_lengths_ext s1 s2 xl :
  words s1 = words s2 -> hwords s1 = hwords s2 -> sequences s1 = sequences s2 ->
  this_word s1 = this_word s2 -> n_constant s1 = n_constant s2 ->
  min_n_components s1 = min_n_components s2 ->
  max_n_components s1 = max_n_components s2 ->
  random_state s1 = random_state s2 -> verbose s1 = verbose s2 ->
  with_X_lengths s1 xl = with_X_lengths s2 xl.
Proof. unfold with_X_lengths. congruence. Qed.

Lemma fold_left_with_X_lengths_last l xl s :
  fold_left with_X_lengths (l ++ [xl]) s = with_X_lengths s xl.
Proof.
  rewrite fold_left_app. simpl.
  destruct (fold_left_with_X_lengths_fields l s)
    as (H1 & H2 & H3 & H4 & H5 & H6 & H7 & H8 & H9).
  now apply with_X_lengths_ext.
Qed.

(** The body of the loop over the state counts, on the split path. *)
Lemma cv_body_split_run k f :
  (3 <= List.length (sequences (self f)))%nat ->
  exists sc,
    SelectorCV_body k f =
    let seqs := sequences (self f) in
    let seed := random_state (self f) in
    let folds := folds3 (List.length seqs) in
    let st := fold_left (track higher) (cv_means seqs seed k folds [])
                (best_score f, best_model f) in
    (Ret tt,
     mkFrame (fold_left with_X_lengths (cv_trains seqs seed k folds) (self f))
             (log f ++ cv_events seqs seed folds k) (fst st) (snd st) sc).
Proof.
  intros Hn. unfold SelectorCV_body.
  unfold bind at 1. unfold set_scores at 1. cbv beta iota.
  unfold try_except. unfold bind at 1. unfold get_self at 1. cbv beta iota.
  cbn [self].
  assert (Hlen : (2 <? len (sequences (self f))) = true).
  { apply Z.ltb_lt. unfold len. lia. }
  rewrite Hlen. unfold bind at 1. unfold lift at 1. rewrite (KFold_split_3 _ Hn).
  match goal with |- context [for_each _ _ ?f1] =>
    destruct (cv_folds_run k (folds3 (List.length (sequences (self f)))) f1)
      as (r & sc & Heq); [apply (folds3_valid_fold _ Hn)|] end.
  exists sc. rewrite Heq. cbv zeta. simpl. destruct r as [[]|]; reflexivity.
Qed.

(** The same without a split. *)
Lemma cv_body_nosplit_run k f :
  (List.length (sequences (self f)) <= 2)%nat ->
  SelectorCV_body k f =
  let st := track higher (best_score f, best_model f) (nosplit_candidate (self f) k) in
  (Ret tt,
   mkFrame (self f) (log f ++ full_data_events (self f) k) (fst st) (snd st) []).
Proof.
  intros Hn. unfold SelectorCV_body.
  unfold bind at 1. unfold set_scores at 1. cbv beta iota.
  unfold try_except. unfold bind at 1. unfold get_self at 1. cbv beta iota.
  cbn [self].
  assert (Hlen : (2 <? len (sequences (self f))) = false).
  { apply Z.ltb_ge. unfold len. lia. }
  rewrite Hlen. unfold bind at 1. rewrite base_model_run.
  unfold nosplit_candidate, full_data_events. simpl.
  destruct (fit_opt (self f) k) as [m|]; simpl.
  2:{ reflexivity. }
  unfold bind, call_score, emit, lift, get, get_self, set_best_score,
    set_best_model, ret, add_log. simpl.
  destruct (Model_score m _ _) as [v|e]; simpl.
  2:{ rewrite <- app_assoc. reflexivity. }
  unfold higher. destruct (best_score f <? v)%float; simpl;
    rewrite <- app_assoc; reflexivity.
Qed.

Lemma cv_loop_split_run ks : forall f,
  (3 <= List.length (sequences (self f)))%nat ->
  exists sc,
    for_each ks SelectorCV_body f =
    let seqs := sequences (self f) in
    let seed := random_state (self f) in
    let folds := folds3 (List.length seqs) in
    let st := fold_left (track higher)
                (flat_map (fun k => cv_means seqs seed k folds []) ks)
                (best_score f, best_model f) in
    (Ret tt,
     mkFrame (fold_left with_X_lengths
                (flat_map (fun k => cv_trains seqs seed k folds) ks) (self f))
             (log f ++ flat_map (cv_events seqs seed folds) ks)
             (fst st) (snd st) sc).
Proof.
  induction ks as [|k ks IH]; intros f Hn.
  - exists (scores f). simpl. unfold ret. destruct f; simpl. now rewrite app_nil_r.
  - simpl for_each. unfold bind at 1.
    destruct (cv_body_split_run k f Hn) as (sc1 & ->). cbv beta iota zeta.
    pose proof (fold_left_with_X_lengths_fields
        (cv_trains (sequences (self f)) (random_state (self f)) k
           (folds3 (List.length (sequences (self f))))) (self f)) as Hf.
    cbv zeta in Hf. destruct Hf as (_ & _ & Hseq & _ & _ & _ & _ & Hseed & _).
    match goal with |- context [for_each ks _ ?f1] =>
      destruct (IH f1) as (sc & Heq) end.
    { cbn [self]. rewrite Hseq. exact Hn. }
    cbv zeta in Heq. cbn [self log best_score best_model scores] in Heq.
    rewrite Hseq, Hseed in Heq.
    exists sc. rewrite Heq. cbv zeta. cbn [flat_map].
    rewrite !fold_left_app, <- app_assoc, <- surjective_pairing. reflexivity.
Qed.

Lemma cv_loop_nosplit_run ks : forall f,
  (List.length (sequences (self f)) <= 2)%nat ->
  exists sc,
    for_each ks SelectorCV_body f =
    let st := fold_left (track higher) (map (nosplit_candidate (self f)) ks)
                (best_score f, best_model f) in
    (Ret tt,
     mkFrame (self f) (log f ++ flat_map (full_data_events (self f)) ks)
             (fst st) (snd st) sc).
Proof.
  induction ks as [|k ks IH]; intros f Hn.
  - exists (scores f). simpl. unfold ret. destruct f; simpl. now rewrite app_nil_r.
  - simpl for_each. unfold bind at 1. rewrite (cv_body_nosplit_run k f Hn).
    cbv beta iota zeta.
    match goal with |- context [for_each ks _ ?f1] =>
      destruct (IH f1) as (sc & Heq); [exact Hn|] end.
    cbv zeta in Heq. cbn [self log best_score best_model scores] in Heq.
    exists sc. rewrite Heq. cbn [flat_map map fold_left].
    rewrite <- app_assoc, <- surjective_pairing. reflexivity.
Qed.

(** [SelectorCV.select] on a word with more than two sequences. *)
Lemma SelectorCV_select_split_run s lg :
  (3 <= List.length (sequences s))%nat ->
  let seqs := sequences s in
  let seed := random_state s in
  let folds := folds3 (List.length seqs) in
  let ks := range (min_n_components s) (max_n_components s) in
  select SelectorCV s lg =
  (Ret (snd (fold_left (track higher)
               (flat_map (fun k => cv_means seqs seed k folds []) ks)
               (neg_infinity, None))),
   fold_left with_X_lengths (flat_map (fun k => cv_trains seqs seed k folds) ks) s,
   lg ++ flat_map (cv_events seqs seed folds) ks).
Proof.
  intros Hn. cbv zeta.
  unfold select, select_body, SelectorCV_select.
  unfold bind at 1. simpl. unfold bind at 1. simpl. unfold bind at 1. simpl.
  unfold bind at 1.
  destruct (cv_loop_split_run (range (min_n_components s) (max_n_components s))
              (mkFrame s lg neg_infinity None []) Hn) as (sc & Heq).
  simpl in Heq. rewrite Heq. reflexivity.
Qed.

(** [SelectorCV.select] on a word with at most two sequences. *)
Lemma SelectorCV_select_nosplit_run s lg :
  (List.length (sequences s) <= 2)%nat ->
  let ks := range (min_n_components s) (max_n_components s) in
  select SelectorCV s lg =
  (Ret (snd (fold_left (track higher) (map (nosplit_candidate s) ks)
               (neg_infinity, None))),
   s,
   lg ++ flat_map (full_data_events s) ks).
Proof.
  intros Hn. cbv zeta.
  unfold select, select_body, SelectorCV_select.
  unfold bind at 1. simpl. unfold bind at 1. simpl. unfold bind at 1. simpl.
  unfold bind at 1.
  destruct (cv_loop_nosplit_run (range (min_n_components s) (max_n_components s))
              (mkFrame s lg neg_infinity None []) Hn) as (sc & Heq).
  simpl in Heq. rewrite Heq. reflexivity.
Qed.

(** [SelectorConstant.select]. *)
Lemma SelectorConstant_select_run s lg :
  select SelectorConstant s lg =
  (Ret (fit_opt s (n_constant s)), s, lg ++ [fit_event s (n_constant s)]).
Proof.
  unfold select, select_body, SelectorConstant_select.
  unfold bind, get_self. simpl. rewrite base_model_run. reflexivity.
Qed.

End WithEngine.
End CVFacts.

(** ** Properties of the selectors *)

Module SelectorSpec.
Import FloatOrder PyFacts Selectors SelectorFacts DICFacts CVFacts Examples MoreExamples.

Section WithEngine.
Context {E : Engine}.

(** *** Where a returned model comes from *)

Lemma fit_opt_Some s k m :
  fit_opt s k = Some m ->
  GaussianHMM_fit k (random_state s) (X s) (lengths s) = Ret m.
Proof.
  unfold fit_opt. destruct (GaussianHMM_fit k _ _ _); congruence.
Qed.

Lemma bic_candidate_fit s k m sc :
  bic_candidate s k = Some (m, sc) -> fit_opt s k = Some m.
Proof.
  unfold bic_candidate. destruct (fit_opt s k) as [m'|]; [|discriminate].
  destruct (Model_score m' _ _); [|discriminate].
  destruct (shape1 _); congruence.
Qed.

Lemma dic_candidate_fit s k m sc :
  dic_candidate s k = Some (m, sc) -> fit_opt s k = Some m.
Proof.
  unfold dic_candidate. destruct (fit_opt s k) as [m'|]; [|discriminate].
  destruct (Model_score m' _ _); [|discriminate].
  destruct (fst (dic_sum _ _ _ _)); [|discriminate].
  destruct (truediv _ _); congruence.
Qed.

Lemma nosplit_candidate_fit s k m sc :
  nosplit_candidate s k = Some (m, sc) -> fit_opt s k = Some m.
Proof.
  unfold nosplit_candidate. destruct (fit_opt s k) as [m'|]; [|discriminate].
  destruct (Model_score m' _ _); congruence.
Qed.

Lemma cv_means_fit seqs seed k folds : forall sc0 m sc,
  In (Some (m, sc)) (cv_means seqs seed k folds sc0) ->
  exists fold v, In fold folds /\ cv_outcome seqs seed k fold = Scored m v.
Proof.
  induction folds as [|fold folds IH]; intros sc0 m sc; simpl; [tauto|].
  destruct (cv_outcome seqs seed k fold) as [|m' e|m' v] eqn:Hout.
  - intros H. destruct (IH _ _ _ H) as (fd & v & Hin & Ho). eauto.
  - intros [].
  - intros [[= -> _]|H]; [eauto|].
    destruct (IH _ _ _ H) as (fd & v' & Hin & Ho). eauto.
Qed.

Lemma cv_outcome_fit seqs seed k fold m v :
  cv_outcome seqs seed k fold = Scored m v ->
  GaussianHMM_fit k seed (fst (fold_data seqs (fst fold)))
    (snd (fold_data seqs (fst fold))) = Ret m.
Proof.
  unfold cv_outcome. destruct (GaussianHMM_fit k seed _ _) as [m'|]; [|discriminate].
  destruct (Model_score m' _ _); congruence.
Qed.

Lemma track_fold_model (better : float -> float -> bool) cs st m :
  snd (fold_left (track better) cs st) = Some m ->
  snd st = Some m \/ exists sc, In (Some (m, sc)) cs.
Proof.
  revert st. induction cs as [|c cs IH]; intros st; simpl; [now left|].
  intros H. destruct (IH _ H) as [Hst|[sc Hin]]; [|right; eauto].
  destruct c as [[m' sc']|]; simpl in Hst; [|now left].
  destruct (better sc' (fst st)); [|now left].
  simpl in Hst. injection Hst as ->. right. exists sc'. now left.
Qed.

Lemma track_dic_model cs : forall bm m,
  fold_left track_dic cs bm = Some m ->
  bm = Some m \/ exists sc, In (Some (m, sc)) cs.
Proof.
  induction cs as [|c cs IH]; intros bm m; simpl; [now left|].
  intros H. destruct (IH _ _ H) as [Hst|[sc Hin]]; [|right; eauto].
  destruct c as [[m' sc']|]; simpl in Hst; [|now left].
  destruct (neg_infinity <? sc')%float; [|now left].
  injection Hst as ->. right. exists sc'. now left.
Qed.

Lemma dic_candidate_singleton s k :
  len (words s) = 1 -> dic_candidate s k = None.
Proof.
  intros HM. unfold dic_candidate.
  destruct (fit_opt s k); [|reflexivity].
  destruct (Model_score _ _ _); [|reflexivity].
  destruct (fst (dic_sum _ _ _ _)); [|reflexivity].
  rewrite HM. reflexivity.
Qed.

Lemma track_dic_all_None cs bm :
  (forall c, In c cs -> c = None) -> fold_left track_dic cs bm = bm.
Proof.
  revert bm. induction cs as [|c cs IH]; intros bm H; simpl; [reflexivity|].
  rewrite (H c (or_introl eq_refl)). simpl. apply IH. intros; apply H; now right.
Qed.

(** C6: for each of the four selectors, [select] returns a model or
    [None] and raises nothing, whatever fits and scorings fail; a model
    returned is one that a fit produced; and the discriminative selector
    on a vocabulary of one word, where the division by [M - 1] is a
    division by zero, returns [None]. *)
Theorem select_never_raises (c : selector) (s : ModelSelector) (lg : list event) :
  exists r s' lg',
    select c s lg = (Ret r, s', lg')
    /\ (forall m, r = Some m ->
          exists k x l, GaussianHMM_fit k (random_state s) x l = Ret m)
    /\ (c = SelectorDIC -> len (words s) = 1 -> r = None).
Proof.
  destruct c.
  - rewrite SelectorConstant_select_run. do 3 eexists. split; [reflexivity|].
    split; [|discriminate].
    intros m Hm. apply fit_opt_Some in Hm. eauto.
  - rewrite SelectorBIC_select_run. do 3 eexists. split; [reflexivity|].
    split; [|discriminate].
    intros m Hm. apply track_fold_model in Hm as [Hm|[sc Hin]]; [discriminate|].
    apply in_map_iff in Hin as (k & Hk & _).
    apply bic_candidate_fit, fit_opt_Some in Hk. eauto.
  - rewrite SelectorDIC_select_run. do 3 eexists. split; [reflexivity|]. split.
    + intros m Hm. apply track_dic_model in Hm as [Hm|[sc Hin]]; [discriminate|].
      apply in_map_iff in Hin as (k & Hk & _).
      apply dic_candidate_fit, fit_opt_Some in Hk. eauto.
    + intros _ HM. apply track_dic_all_None.
      intros c Hc. apply in_map_iff in Hc as (k & <- & _).
      now apply dic_candidate_singleton.
  - destruct (le_lt_dec (List.length (sequences s)) 2) as [Hn|Hn].
    + rewrite (SelectorCV_select_nosplit_run s lg Hn). do 3 eexists.
      split; [reflexivity|]. split; [|discriminate].
      intros m Hm. apply track_fold_model in Hm as [Hm|[sc Hin]]; [discriminate|].
      apply in_map_iff in Hin as (k & Hk & _).
      apply nosplit_candidate_fit, fit_opt_Some in Hk. eauto.
    + rewrite (SelectorCV_select_split_run s lg Hn). do 3 eexists.
      split; [reflexivity|]. split; [|discriminate].
      intros m Hm. apply track_fold_model in Hm as [Hm|[sc Hin]]; [discriminate|].
      apply in_flat_map in Hin as (k & _ & Hin).
      apply cv_means_fit in Hin as (fold & v & _ & Hout).
      apply cv_outcome_fit in Hout. eauto.
Qed.


(** *** The attempted state counts *)

Lemma attempted_app l1 l2 : attempted (l1 ++ l2) = attempted l1 ++ attempted l2.
Proof. apply flat_map_app. Qed.

Lemma attempted_flat_map (f : Z -> list event) ks :
  (forall k, attempted (f k) = [k]) -> attempted (flat_map f ks) = ks.
Proof.
  intros H. induction ks as [|k ks IH]; simpl; [reflexivity|].
  now rewrite attempted_app, H, IH.
Qed.

Lemma attempted_full_data_events s k : attempted (full_data_events s k) = [k].
Proof. unfold full_data_events. simpl. now destruct (fit_opt s k). Qed.

Lemma attempted_dic_events s k : attempted (dic_events s k) = [k].
Proof.
  unfold dic_events. simpl. destruct (fit_opt s k) as [m|]; [|reflexivity].
  simpl. destruct (Model_score m _ _); [|reflexivity].
  now rewrite dic_sum_scores_only.
Qed.

Lemma attempted_cv_fold_events seqs seed k fold :
  attempted (cv_fold_events seqs seed k fold) = [k].
Proof.
  unfold cv_fold_events. simpl. now destruct (cv_outcome seqs seed k fold).
Qed.

Lemma attempted_cv_events seqs seed folds k :
  attempted (cv_events seqs seed folds k)
  = repeat k (List.length (processed seqs seed k folds)).
Proof.
  unfold cv_events.
  induction (processed seqs seed k folds) as [|fold l IH]; [reflexivity|].
  cbn [flat_map List.length repeat].
  rewrite attempted_app, attempted_cv_fold_events, IH. reflexivity.
Qed.

Lemma processed_not_nil seqs seed k folds :
  folds <> [] -> processed seqs seed k folds <> [].
Proof. destruct folds; [congruence|]. discriminate. Qed.

Lemma attempted_cv_all seqs seed folds ks k' :
  folds <> [] ->
  In k' (attempted (flat_map (cv_events seqs seed folds) ks)) <-> In k' ks.
Proof.
  intros Hne. induction ks as [|k ks IH]; simpl; [tauto|].
  rewrite attempted_app, in_app_iff, IH, attempted_cv_events.
  pose proof (processed_not_nil seqs seed k folds Hne) as Hp.
  destruct (processed seqs seed k folds) as [|fd l]; [congruence|].
  split.
  - intros [H|H]; [|now right]. left. apply repeat_spec in H. now symmetry.
  - intros [->|H]; [|now right]. left. simpl. now left.
Qed.

(** *** SelectorBIC *)

Lemma bic_candidate_scored s k m sc :
  bic_candidate s k = Some (m, sc) <-> bic_scored s k m sc.
Proof.
  unfold bic_candidate, bic_scored, fit_opt, BIC. cbv zeta.
  split.
  - destruct (GaussianHMM_fit k _ _ _) as [m'|]; [|discriminate].
    destruct (Model_score m' _ _) as [logL|] eqn:Hs; [|discriminate].
    destruct (shape1 _) as [d|]; [|discriminate].
    intros [= <- <-]. split; [reflexivity|]. exists logL, d.
    rewrite Hs, (Z.mul_comm 2 d). auto.
  - intros (-> & logL & d & -> & -> & ->). now rewrite (Z.mul_comm 2 d).
Qed.

(** *** SelectorDIC *)

Lemma dic_sum_spec s m ws : forall acc sum,
  fst (dic_sum s m ws acc) = Ret sum
  <-> exists vs, Forall2 (competitor_score s m) ws vs
                 /\ sum = fold_left PrimFloat.add vs acc.
Proof.
  induction ws as [|w ws IH]; intros acc sum; simpl.
  - split.
    + intros [= <-]. exists []. split; [constructor|reflexivity].
    + intros (vs & HF & ->). inversion HF. reflexivity.
  - unfold dict_getitem.
    destruct (dict_get (hwords s) w) as [xl|] eqn:Hget.
    + destruct (Model_score m (fst xl) (snd xl)) as [v|e] eqn:Hs.
      * specialize (IH (acc + v)%float sum).
        destruct (dic_sum s m ws (acc + v)) as [r evs]. simpl in *. rewrite IH.
        split.
        -- intros (vs & HF & ->). exists (v :: vs). split; [|reflexivity].
           constructor; [|assumption]. exists xl. now split.
        -- intros (vs & HF & ->). inversion HF as [|? v' ? vs' Hw HF']; subst.
           destruct Hw as (xl' & Hget' & Hs'). rewrite Hget in Hget'.
           injection Hget' as <-. rewrite Hs in Hs'. injection Hs' as <-.
           exists vs'. now split.
      * simpl. split; [discriminate|].
        intros (vs & HF & _). inversion HF as [|? v' ? vs' Hw HF']; subst.
        destruct Hw as (xl' & Hget' & Hs'). rewrite Hget in Hget'.
        injection Hget' as <-. rewrite Hs in Hs'. discriminate.
    + simpl. split; [discriminate|].
      intros (vs & HF & _). inversion HF as [|? v' ? vs' Hw HF']; subst.
      destruct Hw as (xl' & Hget' & _). rewrite Hget in Hget'. discriminate.
Qed.

(** The candidates of the loop of [SelectorDIC.select] are the state
    counts with a DIC score in the sense of the specification. *)
Lemma dic_candidate_scored s k m sc :
  dic_candidate s k = Some (m, sc) <-> dic_scored s k m sc.
Proof.
  unfold dic_candidate, dic_scored, fit_opt, truediv.
  destruct (GaussianHMM_fit k _ _ _) as [m'|e].
  2:{ split; [discriminate|]. intros [H _]. discriminate. }
  split.
  - destruct (Model_score m' _ _) as [own|] eqn:Hown; [|discriminate].
    destruct (fst (dic_sum s m' (others s) 0)) as [sum|] eqn:Hsum; [|discriminate].
    destruct (Z.eqb_spec (len (words s) - 1) 0) as [|Hne]; [discriminate|].
    intros [= <- <-]. split; [reflexivity|].
    apply dic_sum_spec in Hsum as (vs & HF & ->).
    exists own, vs. rewrite Hown. auto.
  - intros ([= ->] & own & vs & -> & HF & Hne & ->).
    assert (Hsum : fst (dic_sum s m (others s) 0) = Ret (fold_left PrimFloat.add vs 0%float)).
    { apply dic_sum_spec. eauto. }
    rewrite Hsum. destruct (Z.eqb_spec (len (words s) - 1) 0); [contradiction|].
    reflexivity.
Qed.

(** C2, amended: [SelectorBIC.select] raises nothing and leaves the
    instance as it is.  If some state count of the range fits, is scored
    and gets a BIC score [-2*logL + p*ln(N)], [p = k*(2*d+1)], below
    positive infinity, the model returned is one of these candidates: its
    score is below positive infinity, no scored candidate of the range has
    a lower score, and no scored candidate with a smaller state count has
    a score at or below it (the first one on a tie); if no candidate is
    fitted and scored with a BIC score below positive infinity, in
    particular if none fits, [None] is returned. *)
Theorem SelectorBIC_select_min (s : ModelSelector) (lg : list event) :
  exists r lg',
    select SelectorBIC s lg = (Ret r, s, lg')
    /\ ((exists k m sc,
           min_n_components s <= k < max_n_components s
           /\ bic_scored s k m sc /\ (sc <? infinity)%float = true) ->
        exists k m sc,
          r = Some m
          /\ min_n_components s <= k < max_n_components s
          /\ bic_scored s k m sc
          /\ (sc <? infinity)%float = true
          /\ (forall k' m' sc',
                min_n_components s <= k' < max_n_components s ->
                bic_scored s k' m' sc' -> (sc' <? sc)%float = false)
          /\ (forall k' m' sc',
                min_n_components s <= k' < k ->
                bic_scored s k' m' sc' -> (sc' <=? sc)%float = false))
    /\ ((forall k m sc,
           min_n_components s <= k < max_n_components s ->
           bic_scored s k m sc -> (sc <? infinity)%float = false) ->
        r = None).
Proof.
  rewrite SelectorBIC_select_run. do 2 eexists. split; [reflexivity|].
  set (ks := range (min_n_components s) (max_n_components s)).
  set (cs := map (bic_candidate s) ks).
  assert (Hcs : forall m sc, In (Some (m, sc)) cs <->
            exists k, min_n_components s <= k < max_n_components s
                      /\ bic_scored s k m sc).
  { intros m sc. unfold cs. rewrite in_map_iff. split.
    - intros (k & Hk & Hin). exists k. split; [now apply range_In|].
      now apply bic_candidate_scored.
    - intros (k & Hin & Hk). exists k. split; [now apply bic_candidate_scored|].
      now apply range_In. }
  split.
  - intros (k0 & m0 & sc0 & Hk0 & Hsc0 & Hlt0).
    destruct (track_fold_some lower lower_irrefl lower_trans cs (infinity, None) m0 sc0)
      as (m & sc & _ & Heq); [apply Hcs; eauto|exact Hlt0|].
    assert (Hres : snd (fold_left (track lower) cs (infinity, None)) = Some m)
      by now rewrite Heq.
    destruct (track_fold_split lower lower_irrefl lower_trans _ _ _ Hres eq_refl)
      as (l1 & sc1 & l2 & Hsplit & Hfst & Hbetter & _).
    rewrite Heq in Hfst. cbn [fst] in Hfst. subst sc1.
    destruct (track_fold_best lower lower_irrefl lower_trans cs (infinity, None))
      as [_ Hall].
    cbv zeta in Hall. rewrite Heq in Hall. cbn [fst] in Hall.
    rewrite Heq. cbn [snd].
    unfold cs in Hsplit.
    apply map_eq_app in Hsplit as (ks1 & ks' & Hks & <- & Hsplit).
    apply map_eq_cons in Hsplit as (k & ks2 & -> & Hk & <-).
    pose proof (range_split _ _ _ _ _ Hks) as [_ Hrange].
    pose proof (range_split_l _ _ _ _ _ Hks) as ->.
    destruct (track_fold_best lower lower_irrefl lower_trans
                (map (bic_candidate s) (range (min_n_components s) k)) (infinity, None))
      as [Hfst1 Hall1].
    cbv zeta in Hfst1, Hall1. cbn [fst] in Hfst1.
    unfold lower in Hbetter, Hall, Hall1, Hfst1.
    exists k, m, sc. split; [reflexivity|]. split; [assumption|].
    split; [now apply bic_candidate_scored|]. split; [|split].
    + destruct Hfst1 as [Hfst1|Hfst1]; [now rewrite <- Hfst1|].
      eapply ltb_trans; eassumption.
    + intros k' m' sc' Hk' Hsc'. apply (Hall m'). apply Hcs. eauto.
    + intros k' m' sc' Hk' Hsc'.
      apply (not_ltb_not_leb _ _ _ Hbetter).
      apply (Hall1 m'). apply in_map_iff. exists k'.
      split; [now apply bic_candidate_scored|]. now apply range_In.
  - intros Hnone. rewrite (track_fold_none lower lower_trans cs (infinity, None)).
    + reflexivity.
    + intros m sc Hin. apply Hcs in Hin as (k & Hk & Hsc). now apply (Hnone k m).
Qed.

(** C7, amended: every searching selector attempts fits for the state
    counts of [range(min_n_components, max_n_components)] and no others:
    the penalized and the discriminative selector one fit per count, in
    order; the cross-validated one at least one fit per count.  With
    [min = 2] and [max = 4] the penalized selector attempts 2 and 3 only.
    It returns [None] if neither is fitted and scored.  If both are
    fitted and scored, it returns the model with the lower BIC score (the
    one with 2 states on a tie) when the score for 2 states is below
    positive infinity; otherwise the one with 3 states when its score is
    below positive infinity, and [None] when neither score is.  If one
    only is fitted and scored, it returns that model when its score is
    below positive infinity, and [None] otherwise. *)
Theorem candidates_enumerated (s : ModelSelector) (lg : list event) :
  let ks := range (min_n_components s) (max_n_components s) in
  (exists evs, snd (select SelectorBIC s lg) = lg ++ evs /\ attempted evs = ks)
  /\ (exists evs, snd (select SelectorDIC s lg) = lg ++ evs /\ attempted evs = ks)
  /\ (exists evs, snd (select SelectorCV s lg) = lg ++ evs
                  /\ forall k, In k (attempted evs)
                               <-> min_n_components s <= k < max_n_components s)
  /\ (min_n_components s = 2 -> max_n_components s = 4 ->
        exists r evs,
          select SelectorBIC s lg = (Ret r, s, lg ++ evs)
          /\ attempted evs = [2; 3]
          /\ ((forall m sc, ~ bic_scored s 2 m sc) ->
              (forall m sc, ~ bic_scored s 3 m sc) -> r = None)
          /\ (forall m2 sc2 m3 sc3,
                bic_scored s 2 m2 sc2 -> bic_scored s 3 m3 sc3 ->
                r = if (sc2 <? infinity)%float
                    then Some (if (sc3 <? sc2)%float then m3 else m2)
                    else if (sc3 <? infinity)%float then Some m3 else None)
          /\ (forall m2 sc2,
                bic_scored s 2 m2 sc2 -> (forall m sc, ~ bic_scored s 3 m sc) ->
                r = if (sc2 <? infinity)%float then Some m2 else None)
          /\ (forall m3 sc3,
                (forall m sc, ~ bic_scored s 2 m sc) -> bic_scored s 3 m3 sc3 ->
                r = if (sc3 <? infinity)%float then Some m3 else None)).
Proof.
  cbv zeta. split; [|split; [|split]].
  - rewrite SelectorBIC_select_run. eexists. split; [reflexivity|].
    apply attempted_flat_map, attempted_full_data_events.
  - rewrite SelectorDIC_select_run. eexists. split; [reflexivity|].
    apply attempted_flat_map, attempted_dic_events.
  - destruct (le_lt_dec (List.length (sequences s)) 2) as [Hn|Hn].
    + rewrite (SelectorCV_select_nosplit_run s lg Hn). eexists.
      split; [reflexivity|]. intros k.
      rewrite attempted_flat_map by apply attempted_full_data_events.
      apply range_In.
    + rewrite (SelectorCV_select_split_run s lg Hn). eexists.
      split; [reflexivity|]. intros k.
      rewrite attempted_cv_all by (apply folds3_not_nil; lia).
      apply range_In.
  - intros Hmin Hmax. rewrite SelectorBIC_select_run, Hmin, Hmax.
    do 2 eexists. split; [reflexivity|].
    change (range 2 4) with [2; 3].
    split; [apply attempted_flat_map, attempted_full_data_events|].
    assert (Hnone : forall k, (forall m sc, ~ bic_scored s k m sc) ->
                              bic_candidate s k = None).
    { intros k H. destruct (bic_candidate s k) as [[m sc]|] eqn:Ek; [|reflexivity].
      exfalso. apply (H m sc). now apply bic_candidate_scored. }
    split; [|split; [|split]].
    + intros H2 H3. simpl. now rewrite (Hnone 2 H2), (Hnone 3 H3).
    + intros m2 sc2 m3 sc3 H2 H3.
      apply bic_candidate_scored in H2, H3. simpl. rewrite H2, H3. simpl.
      unfold lower. destruct (sc2 <? infinity)%float; simpl.
      * destruct (sc3 <? sc2)%float; reflexivity.
      * destruct (sc3 <? infinity)%float; reflexivity.
    + intros m2 sc2 H2 H3.
      apply bic_candidate_scored in H2. simpl. rewrite H2, (Hnone 3 H3). simpl.
      unfold lower. destruct (sc2 <? infinity)%float; reflexivity.
    + intros m3 sc3 H2 H3.
      apply bic_candidate_scored in H3. simpl. rewrite (Hnone 2 H2), H3. simpl.
      unfold lower. destruct (sc3 <? infinity)%float; reflexivity.
Qed.


(** *** SelectorCV *)

Lemma processed_incl seqs seed k folds fold :
  In fold (processed seqs seed k folds) -> In fold folds.
Proof.
  induction folds as [|fd folds IH]; simpl; [tauto|].
  intros [->|H]; [now left|]. right.
  destruct (cv_outcome seqs seed k fd); [now apply IH|destruct H|now apply IH].
Qed.

Lemma processed_all seqs seed k folds :
  (forall fold m e, In fold folds -> cv_outcome seqs seed k fold <> ScoreFailed m e) ->
  processed seqs seed k folds = folds.
Proof.
  induction folds as [|fd folds IH]; intros H; simpl; [reflexivity|].
  f_equal. destruct (cv_outcome seqs seed k fd) as [|m e|m v] eqn:Hout.
  - apply IH. intros fold m e Hin. apply H. now right.
  - exfalso. apply (H fd m e); [now left|assumption].
  - apply IH. intros fold m' e Hin. apply H. now right.
Qed.

Lemma fit_data_app l1 l2 : fit_data (l1 ++ l2) = fit_data l1 ++ fit_data l2.
Proof. apply flat_map_app. Qed.

Lemma fit_data_cv_fold_events seqs seed k fold :
  fit_data (cv_fold_events seqs seed k fold) = [fold_data seqs (fst fold)].
Proof.
  unfold cv_fold_events. cbv zeta. unfold fit_data. cbn [flat_map].
  destruct (cv_outcome seqs seed k fold); reflexivity.
Qed.

Lemma fit_data_cv_events seqs seed folds k :
  fit_data (cv_events seqs seed folds k) = cv_trains seqs seed k folds.
Proof.
  unfold cv_events, cv_trains.
  induction (processed seqs seed k folds) as [|fold l IH]; [reflexivity|].
  cbn [flat_map map]. now rewrite fit_data_app, IH, fit_data_cv_fold_events.
Qed.

Lemma fit_data_cv_all seqs seed folds ks :
  fit_data (flat_map (cv_events seqs seed folds) ks)
  = flat_map (fun k => cv_trains seqs seed k folds) ks.
Proof.
  induction ks as [|k ks IH]; [reflexivity|].
  cbn [flat_map]. now rewrite fit_data_app, fit_data_cv_events, IH.
Qed.

Lemma select_frame (c : selector) (s : ModelSelector) (lg : list event) :
  words (snd (fst (select c s lg))) = words s
  /\ hwords (snd (fst (select c s lg))) = hwords s.
Proof.
  destruct c.
  - rewrite SelectorConstant_select_run. now split.
  - rewrite SelectorBIC_select_run. now split.
  - rewrite SelectorDIC_select_run. now split.
  - destruct (le_lt_dec (List.length (sequences s)) 2) as [Hn|Hn].
    + rewrite (SelectorCV_select_nosplit_run s lg Hn). now split.
    + rewrite (SelectorCV_select_split_run s lg Hn). simpl.
      match goal with |- context [fold_left with_X_lengths ?l s] =>
        destruct (fold_left_with_X_lengths_fields l s) as (H1 & H2 & _) end.
      now split.
Qed.

(** C5, amended: on a word with more than 2 sequences, for every state
    count of the range [SelectorCV.select] takes the three folds of the
    deterministic split in order: it fits on the training fold and
    scores the held-out fold; a fold whose fit fails is skipped; a
    failing scoring ends the folds of that state count; after each
    scored fold the mean of the scores of the state count so far is
    compared with the best; a state count none of whose scorings fails
    gets through all three folds.  On a word with 2 or fewer sequences, it
    fits on [self.X] and scores [self.X], once per state count. *)
Theorem SelectorCV_select_paths (s : ModelSelector) (lg : list event) :
  let seqs := sequences s in
  let seed := random_state s in
  let ks := range (min_n_components s) (max_n_components s) in
  (2 < len seqs ->
     let folds := folds3 (List.length seqs) in
     List.length folds = 3%nat
     /\ Forall (valid_fold seqs) folds
     /\ (forall k,
           (forall fold m e, In fold folds ->
              cv_outcome seqs seed k fold <> ScoreFailed m e) ->
           processed seqs seed k folds = folds)
     /\ select SelectorCV s lg =
        (Ret (snd (fold_left (track higher)
                     (flat_map (fun k => cv_means seqs seed k folds []) ks)
                     (neg_infinity, None))),
         fold_left with_X_lengths (flat_map (fun k => cv_trains seqs seed k folds) ks) s,
         lg ++ flat_map (cv_events seqs seed folds) ks))
  /\ (len seqs <= 2 ->
        select SelectorCV s lg =
        (Ret (snd (fold_left (track higher) (map (nosplit_candidate s) ks)
                     (neg_infinity, None))),
         s,
         lg ++ flat_map (full_data_events s) ks)).
Proof.
  cbv zeta. split.
  - intros Hlen. assert (Hn : (3 <= List.length (sequences s))%nat).
    { unfold len in Hlen. lia. }
    split.
    + destruct (folds3_shape _ Hn) as (a & b & c & _ & ->). reflexivity.
    + split; [now apply folds3_valid_fold|].
      split; [intros k; apply processed_all|].
      now apply SelectorCV_select_split_run.
  - intros Hlen. apply SelectorCV_select_nosplit_run. unfold len in Hlen. lia.
Qed.

(** C8: for each selector, a call of [select] with identical
    configuration, data and seed returns the same model, hence the same
    scores, whatever was called before; and a second call on the same
    instance returns the same model as the first, also for [SelectorCV]
    after a first call on the split path. *)
Theorem select_twice_same (c : selector) (s : ModelSelector)
    (lg lg0 : list event) :
  let '(r1, s1, lg1) := select c s lg in
  fst (fst (select c s lg0)) = r1
  /\ fst (fst (select c s1 lg1)) = r1.
Proof.
  destruct c.
  - rewrite !SelectorConstant_select_run. cbv beta iota.
    rewrite ?SelectorConstant_select_run. now split.
  - rewrite !SelectorBIC_select_run. cbv beta iota.
    rewrite ?SelectorBIC_select_run. now split.
  - rewrite !SelectorDIC_select_run. cbv beta iota.
    rewrite ?SelectorDIC_select_run. now split.
  - destruct (le_lt_dec (List.length (sequences s)) 2) as [Hn|Hn].
    + rewrite !(SelectorCV_select_nosplit_run s _ Hn). cbv beta iota.
      rewrite ?(SelectorCV_select_nosplit_run s _ Hn). now split.
    + rewrite !(SelectorCV_select_split_run s _ Hn). cbv beta iota zeta.
      split; [reflexivity|].
      match goal with |- context [fold_left with_X_lengths ?l s] =>
        pose proof (fold_left_with_X_lengths_fields l s) as Hf;
        set (s1 := fold_left with_X_lengths l s) in * end.
      cbv zeta in Hf. destruct Hf as (_ & _ & Hseq & _ & _ & Hmin & Hmax & Hseed & _).
      rewrite (SelectorCV_select_split_run s1) by (rewrite Hseq; exact Hn).
      simpl. now rewrite Hseq, Hseed, Hmin, Hmax.
Qed.

(** C9: after [SelectorCV.select] on a word with more than 2 sequences
    and a non-empty range, [self.X] and [self.lengths] are the
    concatenated training data of a fold, namely the data of the last
    fit attempted, and differ from the word's full flattened
    representation; and no selector changes the two mappings given at
    construction. *)
Theorem SelectorCV_select_keeps_training_fold (s : ModelSelector) (lg : list event) :
  2 < len (sequences s) ->
  min_n_components s < max_n_components s ->
  let '(_, s', lg') := select SelectorCV s lg in
  (exists fold evs,
      In fold (folds3 (List.length (sequences s)))
      /\ (X s', lengths s') = fold_data (sequences s) (fst fold)
      /\ lg' = lg ++ evs
      /\ last (fit_data evs) (X s, lengths s) = (X s', lengths s'))
  /\ (X s', lengths s') <> (concat (sequences s), map len (sequences s))
  /\ (forall c s0 lg0,
        words (snd (fst (select c s0 lg0))) = words s0
        /\ hwords (snd (fst (select c s0 lg0))) = hwords s0).
Proof.
  intros Hlen Hrange.
  assert (Hn : (3 <= List.length (sequences s))%nat).
  { unfold len in Hlen. lia. }
  rewrite (SelectorCV_select_split_run s lg Hn). cbv zeta.
  set (seqs := sequences s). set (seed := random_state s).
  set (folds := folds3 (List.length seqs)).
  set (ks := range (min_n_components s) (max_n_components s)).
  set (trains := flat_map (fun k => cv_trains seqs seed k folds) ks).
  assert (Htr : trains <> []).
  { assert (Hin : In (min_n_components s) ks) by (apply range_In; lia).
    unfold trains. destruct ks as [|k ks']; [destruct Hin|].
    cbn [flat_map]. unfold cv_trains.
    pose proof (processed_not_nil seqs seed k folds (folds3_not_nil _ Hn)) as Hp.
    destruct (processed seqs seed k folds); [congruence|discriminate]. }
  destruct (exists_last Htr) as (l & xl & Heq).
  assert (Hxl : exists fold, In fold folds /\ xl = fold_data seqs (fst fold)).
  { assert (Hin : In xl trains) by (rewrite Heq; apply in_or_app; right; now left).
    apply in_flat_map in Hin as (k & _ & Hin). unfold cv_trains in Hin.
    apply in_map_iff in Hin as (fold & <- & Hin).
    exists fold. split; [now apply processed_incl in Hin|reflexivity]. }
  destruct Hxl as (fold & Hfold & Hxl).
  rewrite Heq, fold_left_with_X_lengths_last. simpl.
  rewrite <- surjective_pairing.
  split; [|split].
  - exists fold, (flat_map (cv_events seqs seed folds) ks).
    split; [assumption|]. split; [assumption|]. split; [reflexivity|].
    rewrite fit_data_cv_all. fold trains. rewrite Heq. apply last_last.
  - rewrite Hxl. unfold fold_data. cbv zeta. intros [= _ Hl].
    apply (f_equal (@List.length Z)) in Hl. rewrite !length_map in Hl.
    destruct (folds3_valid _ fold Hn Hfold) as (_ & _ & Hlt).
    fold seqs in Hlt. rewrite Hl in Hlt. exact (Nat.lt_irrefl _ Hlt).
  - intros c s0 lg0. apply select_frame.
Qed.

End WithEngine.

(** The instances of the examples are those the constructor builds. *)
Example selector_A_init :
  init [("A"%string, one_sequence)] [("A"%string, item0)] "A"%string 3 2 4 14 false
  = Ret selector_A.
Proof. reflexivity. Qed.

Example selector_AB_init :
  init [("A"%string, one_sequence); ("B"%string, [[[2%float]; [2%float]]])]
    [("A"%string, item0); ("B"%string, data_B)] "A"%string 3 2 4 14 false
  = Ret selector_AB.
Proof. reflexivity. Qed.

Example selector_C_init :
  init [("C"%string, three_sequences)] [("C"%string, data_C)] "C"%string 3 2 3 14 false
  = Ret selector_C.
Proof. reflexivity. Qed.

(** C1, the code at the failing input: in a vocabulary of two words the
    candidates with 2 and 3 states both fit, with DIC scores 20 and 5; the
    maximum is at 2 states, and [SelectorDIC.select] returns the model
    with 3 states, the last candidate. *)
Theorem SelectorDIC_select_returns_last :
  dic_scored (E := dic_engine) selector_AB 2 2 20
  /\ dic_scored (E := dic_engine) selector_AB 3 3 5
  /\ (5 <? 20)%float = true
  /\ select (E := dic_engine) SelectorDIC selector_AB []
     = (Ret (Some 3), selector_AB,
        [EvFit (E := dic_engine) 2 14 [[1%float]] [1]; EvScore (E := dic_engine) 2 [[1%float]] [1];
         EvScore (E := dic_engine) 2 [[2%float]; [2%float]] [2];
         EvFit (E := dic_engine) 3 14 [[1%float]] [1]; EvScore (E := dic_engine) 3 [[1%float]] [1];
         EvScore (E := dic_engine) 3 [[2%float]; [2%float]] [2]]).
Proof.
  split; [|split; [|split; reflexivity]].
  - apply dic_candidate_scored. reflexivity.
  - apply dic_candidate_scored. reflexivity.
Qed.

(** C2 as stated fails: the state count 2 fits successfully for the word,
    its scoring fails, and [None] is returned. *)
Lemma SelectorBIC_select_counterexample :
  ~ ((exists k m, In k (range 2 4)
                  /\ GaussianHMM_fit (Engine := unscorable_engine) k 14 [[1%float]] [1]
                     = Ret m) ->
     exists m, fst (fst (select (E := unscorable_engine) SelectorBIC selector_A []))
               = Ret (Some m)).
Proof.
  intros H. destruct H as [m Hm].
  - exists 2, 2. split; [simpl; auto|reflexivity].
  - discriminate Hm.
Qed.

Lemma SelectorBIC_select_min_witness :
  exists m, fst (fst (select (E := scenario_engine) SelectorBIC selector_A [])) = Ret (Some m).
Proof.
  destruct (SelectorBIC_select_min (E := scenario_engine) selector_A [])
    as (r & lg' & Hsel & Hsome & _).
  destruct Hsome as (k & m & sc & -> & _).
  - exists 2, 2, 100%float. repeat split; try reflexivity; try lia.
    exists (-50)%float, 1. repeat split.
  - exists m. now rewrite Hsel.
Defined.

(** C7 as stated fails: both state counts are fitted and scored, with the
    BIC score positive infinity, and [None] is returned. *)
Lemma candidates_enumerated_counterexample :
  ~ (forall m2 sc2 m3 sc3,
       bic_scored (E := zero_likelihood_engine) selector_A 2 m2 sc2 ->
       bic_scored (E := zero_likelihood_engine) selector_A 3 m3 sc3 ->
       fst (fst (select (E := zero_likelihood_engine) SelectorBIC selector_A []))
       = Ret (Some (if (sc3 <? sc2)%float then m3 else m2))).
Proof.
  intros H. specialize (H 2 infinity 3 infinity).
  discriminate H; (split; [reflexivity|]); exists neg_infinity, 1; repeat split.
Qed.

Lemma candidates_enumerated_witness :
  exists r evs,
    select (E := scenario_engine) SelectorBIC selector_A [] = (Ret r, selector_A, [] ++ evs)
    /\ attempted evs = [2; 3]
    /\ r = Some 2.
Proof.
  destruct (candidates_enumerated (E := scenario_engine) selector_A [])
    as (_ & _ & _ & H).
  destruct (H eq_refl eq_refl) as (r & evs & Hsel & Hatt & _ & Hboth & _).
  exists r, evs. repeat split; try assumption.
  rewrite (Hboth 2 100%float 3 150%float); [reflexivity| |].
  - split; [reflexivity|]. exists (-50)%float, 1. repeat split.
  - split; [reflexivity|]. exists (-75)%float, 1. repeat split.
Defined.

(** C5 as stated fails: on a word with three sequences whose held-out
    scoring fails, the state count 2 is not fitted on every training
    fold. *)
Lemma SelectorCV_select_counterexample :
  ~ (2 < len (sequences selector_C) ->
     forall fold, In fold (folds3 3) ->
       In (EvFit (E := unscorable_engine) 2 14
             (fst (fold_data three_sequences (fst fold)))
             (snd (fold_data three_sequences (fst fold))))
          (snd (select (E := unscorable_engine) SelectorCV selector_C []))).
Proof.
  intros H.
  assert (Hin : In ([0; 2]%nat, [1]%nat) (folds3 3)) by (right; left; reflexivity).
  specialize (H eq_refl _ Hin). vm_compute in H. destruct H as [H|[H|[]]].
  - apply (f_equal (fun e => match e with EvFit _ _ _ l => l | _ => [] end)) in H.
    discriminate H.
  - discriminate H.
Qed.

Lemma SelectorCV_select_paths_witness :
  select (E := total_engine) SelectorCV selector_C []
  = (Ret (Some 2),
     with_X_lengths selector_C ([[1%float]; [2%float]; [2%float]], [1; 2]),
     [EvFit (E := total_engine) 2 14
        [[2%float]; [2%float]; [3%float]; [3%float]; [3%float]] [2; 3];
      EvScore (E := total_engine) 2 [[1%float]] [1];
      EvFit (E := total_engine) 2 14 [[1%float]; [3%float]; [3%float]; [3%float]] [1; 3];
      EvScore (E := total_engine) 2 [[2%float]; [2%float]] [2];
      EvFit (E := total_engine) 2 14 [[1%float]; [2%float]; [2%float]] [1; 2];
      EvScore (E := total_engine) 2 [[3%float]; [3%float]; [3%float]] [3]]).
Proof.
  destruct (SelectorCV_select_paths (E := total_engine) selector_C []) as [Hsplit _].
  destruct (Hsplit eq_refl) as (_ & _ & _ & Heq). rewrite Heq. reflexivity.
Defined.

Lemma SelectorCV_select_keeps_training_fold_witness :
  let '(_, s', lg') := select (E := total_engine) SelectorCV selector_C [] in
  (exists fold evs,
      In fold (folds3 3)
      /\ (Selectors.X s', lengths s') = fold_data three_sequences (fst fold)
      /\ lg' = [] ++ evs
      /\ last (fit_data evs) (Selectors.X selector_C, lengths selector_C)
         = (Selectors.X s', lengths s'))
  /\ (Selectors.X s', lengths s') <> (concat three_sequences, map len three_sequences)
  /\ (forall c s0 lg0,
        words (snd (fst (select (E := total_engine) c s0 lg0))) = words s0
        /\ hwords (snd (fst (select (E := total_engine) c s0 lg0))) = hwords s0).
Proof.
  apply (SelectorCV_select_keeps_training_fold (E := total_engine) selector_C []).
  - reflexivity.
  - reflexivity.
Defined.

End SelectorSpec.

(** ** Further properties of the recognizer *)

Module RecognizerMore.
Import FloatOrder PyFacts Recognizer RecognizerFacts Examples MoreExamples.

Lemma dict_comprehension_fold_keys {V W} (f : V -> W) (d : dict V) : forall (acc : dict W) w,
  In w (dict_keys (fold_left (fun acc kv => dict_set acc (fst kv) (f (snd kv))) d acc))
  <-> In w (dict_keys acc) \/ In w (dict_keys d).
Proof.
  induction d as [|[k v] d IH]; intros acc w; simpl; [tauto|].
  rewrite IH, dict_set_keys, in_app_iff.
  destruct (in_dec string_dec k (dict_keys acc)) as [Hin|Hnin]; simpl.
  - split; [tauto|]. intros [H|[<-|H]]; auto.
  - tauto.
Qed.

(** A comprehension over a dict has the keys of the dict. *)
Lemma dict_comprehension_keys {V W} (f : V -> W) (d : dict V) w :
  In w (dict_keys (dict_comprehension f d)) <-> In w (dict_keys d).
Proof.
  unfold dict_comprehension. rewrite dict_comprehension_fold_keys. simpl. tauto.
Qed.

Lemma max_loop_In {A} (key : A -> float) (best : A) (rest : list A) :
  In (max_loop key best rest) (best :: rest).
Proof.
  revert best. induction rest as [|x tl IH]; intros best; simpl; [now left|].
  destruct (key best <? key x)%float.
  - right. apply IH.
  - destruct (IH best) as [H|H]; [now left|right; now right].
Qed.

Lemma max_loop_keeps_first {A} (key : A -> float) (best : A) (rest : list A) :
  (forall x, In x rest -> (key best <? key x)%float = false) ->
  max_loop key best rest = best.
Proof.
  induction rest as [|x tl IH]; intros H; simpl; [reflexivity|].
  rewrite (H x (or_introl eq_refl)). apply IH. intros; apply H; now right.
Qed.

Section WithEngine.
Context {E : Engine}.

Lemma is_guess_In (r : dict float) (g : word) : is_guess r g -> In g (dict_keys r).
Proof.
  unfold is_guess, max_key. destruct (dict_keys r) as [|x tl]; [discriminate|].
  intros [= <-]. apply max_loop_In.
Qed.

Lemma is_guess_unique (r : dict float) (g g' : word) :
  is_guess r g -> is_guess r g' -> g = g'.
Proof. unfold is_guess. congruence. Qed.

Lemma Forall2_is_guess_unique rs : forall gs gs',
  Forall2 is_guess rs gs -> Forall2 is_guess rs gs' -> gs = gs'.
Proof.
  induction rs as [|r rs IH]; intros gs gs' H H'; inversion H; inversion H'; subst;
    [reflexivity|].
  f_equal; [eapply is_guess_unique; eauto|now apply IH].
Qed.

(** [recognize] with an empty mapping returns only for an empty test set. *)
Lemma recognize_nil_Ret (ts : SinglesData) p g :
  recognize [] ts = Ret (p, g) -> ts = [] /\ p = [] /\ g = [].
Proof.
  destruct ts as [|[X l] ts]; [|discriminate].
  intros [= <- <-]. auto.
Qed.

(** What [recognize] returns, when it returns. *)
Lemma recognize_Ret (models : dict Model) (ts : SinglesData) p g :
  recognize models ts = Ret (p, g) ->
  p = map (score_record models) ts /\ Forall2 is_guess p g.
Proof.
  intros H. destruct models as [|kv models].
  - apply recognize_nil_Ret in H as (-> & -> & ->). split; [reflexivity|constructor].
  - destruct (recognize_spec (kv :: models) ts) as (g' & Heq & HF); [discriminate|].
    rewrite Heq in H. injection H as <- <-. auto.
Qed.

(** X1: every guess that [recognize] returns is a word of the model
    mapping. *)
Theorem recognize_guesses_have_models
    (models : dict Model) (test_set : SinglesData)
    (probabilities : list (dict float)) (guesses : list word) :
  recognize models test_set = Ret (probabilities, guesses) ->
  forall g, In g guesses -> In g (dict_keys models).
Proof.
  intros H g Hg. apply recognize_Ret in H as [-> HF].
  apply In_nth_error in Hg as [i Hi].
  assert (Hr : exists r, nth_error (map (score_record models) test_set) i = Some r
                         /\ is_guess r g).
  { clear -HF Hi. revert i Hi. induction HF; intros [|i]; simpl; try discriminate.
    - intros [= ->]. eauto.
    - apply IHHF. }
  destruct Hr as (r & Hr & Hguess).
  rewrite nth_error_map in Hr. destruct (nth_error test_set i) as [item|]; [|discriminate].
  injection Hr as <-. apply is_guess_In in Hguess.
  now apply dict_comprehension_keys in Hguess.
Qed.

(** X2: over a mapping with distinct words, the i-th ScoreRecord has one
    entry per word, in the order of the mapping: the score of the word's
    model on the i-th test item where the scoring succeeds, negative
    infinity where it raises. *)
Theorem recognize_records
    (models : dict Model) (test_set : SinglesData)
    (probabilities : list (dict float)) (guesses : list word) :
  NoDup (dict_keys models) ->
  recognize models test_set = Ret (probabilities, guesses) ->
  probabilities =
  map (fun item =>
         map (fun wm =>
                (fst wm,
                 match Model_score (snd wm) (fst item) (snd item) with
                 | Ret v => v
                 | Raise _ => neg_infinity
                 end)) models) test_set.
Proof.
  intros Hnd H. apply recognize_Ret in H as [-> _].
  apply map_ext. intros item. unfold score_record.
  now rewrite dict_comprehension_map.
Qed.

(** X3: recognition works item by item: the result for two test sets one
    after the other is the concatenation of the two results. *)
Theorem recognize_app (models : dict Model) (ts1 ts2 : SinglesData) p1 g1 p2 g2 :
  recognize models ts1 = Ret (p1, g1) ->
  recognize models ts2 = Ret (p2, g2) ->
  recognize models (ts1 ++ ts2) = Ret (p1 ++ p2, g1 ++ g2).
Proof.
  intros H1 H2. destruct models as [|kv models].
  - apply recognize_nil_Ret in H1 as (-> & -> & ->).
    apply recognize_nil_Ret in H2 as (-> & -> & ->). reflexivity.
  - apply recognize_Ret in H1 as [-> HF1]. apply recognize_Ret in H2 as [-> HF2].
    destruct (recognize_spec (kv :: models) (ts1 ++ ts2)) as (g & Heq & HF);
      [discriminate|].
    rewrite Heq, map_app. f_equal. f_equal.
    rewrite map_app in HF.
    eapply Forall2_is_guess_unique; [exact HF|]. now apply Forall2_app.
Qed.

(** X4: if the scoring of every model fails on a test item, the guess for
    the item is the first word of the mapping. *)
Theorem recognize_all_fail_first
    (models : dict Model) (test_set : SinglesData) (i : nat)
    (X : matrix) (lengths : list Z) (w0 : word) (m0 : Model) (rest : dict Model) :
  models = (w0, m0) :: rest ->
  NoDup (dict_keys models) ->
  nth_error test_set i = Some (X, lengths) ->
  (forall w m, In (w, m) models -> exists e, Model_score m X lengths = Raise e) ->
  exists probabilities guesses,
    recognize models test_set = Ret (probabilities, guesses)
    /\ nth_error guesses i = Some w0.
Proof.
  intros Hm Hnd Hi Hfail.
  destruct (recognize_spec models test_set) as (guesses & Heq & HF); [now subst|].
  exists (map (score_record models) test_set), guesses. split; [assumption|].
  assert (Hr : nth_error (map (score_record models) test_set) i
               = Some (score_record models (X, lengths))).
  { now rewrite nth_error_map, Hi. }
  destruct (Forall2_nth_error_l _ _ _ _ _ HF Hr) as (g & Hg & Hguess).
  rewrite Hg. f_equal.
  unfold is_guess, score_record in Hguess.
  rewrite dict_comprehension_map in Hguess by assumption.
  set (r := map _ models) in Hguess.
  assert (Hall : forall w, In w (dict_keys r) -> dict_get_float r w = neg_infinity).
  { intros w Hw. destruct (dict_get_keys r w Hw) as [v Hv].
    unfold dict_get_float. rewrite Hv. apply dict_get_In in Hv.
    apply in_map_iff in Hv as ([w' m'] & [= <- <-] & Hin).
    simpl. unfold compute_log_likelihood.
    destruct (Hfail _ _ Hin) as [e ->]. reflexivity. }
  subst models. simpl in r. subst r. simpl in Hguess. injection Hguess as <-.
  apply max_loop_keeps_first. intros x Hx.
  rewrite (Hall x) by (right; exact Hx). apply ltb_neg_infinity_r.
Qed.

(** X5: with a single word in the mapping, every guess is that word,
    whatever its model scores. *)
Theorem recognize_single_model (w : word) (m : Model) (test_set : SinglesData) :
  recognize [(w, m)] test_set
  = Ret (map (fun item => [(w, compute_log_likelihood m (fst item) (snd item))]) test_set,
         repeat w (List.length test_set)).
Proof.
  destruct (recognize_spec [(w, m)] test_set) as (guesses & Heq & HF); [discriminate|].
  rewrite Heq. f_equal. f_equal.
  clear Heq. revert guesses HF.
  induction test_set as [|item ts IH]; intros guesses HF;
    inversion HF as [|r y rs ys Hg HF']; subst; [reflexivity|].
  simpl. f_equal; [|now apply IH].
  unfold is_guess, score_record, dict_comprehension in Hg. simpl in Hg.
  now injection Hg.
Qed.

End WithEngine.

Lemma recognize_guesses_have_models_witness :
  In "A"%string (dict_keys models_AB).
Proof.
  refine (recognize_guesses_have_models (E := scenario_engine) models_AB [item0; item0]
            _ ["A"%string; "A"%string] _ "A"%string _).
  - reflexivity.
  - left. reflexivity.
Defined.

Lemma recognize_records_witness :
  [[("A"%string, (-50)%float); ("B"%string, neg_infinity)]]
  = map (fun item =>
           map (fun wm =>
                  (fst wm,
                   match @Model_score failing_B_engine (snd wm) (fst item) (snd item) with
                   | Ret v => v
                   | Raise _ => neg_infinity
                   end)) models_AB) [item0].
Proof.
  apply (recognize_records (E := failing_B_engine) models_AB [item0] _ ["A"%string]).
  - repeat constructor; simpl; intuition discriminate.
  - reflexivity.
Defined.

Lemma recognize_app_witness :
  recognize (E := scenario_engine) models_AB ([item0] ++ [item0])
  = Ret ([[("A"%string, (-50)%float); ("B"%string, (-75)%float)]]
         ++ [[("A"%string, (-50)%float); ("B"%string, (-75)%float)]],
         ["A"%string] ++ ["A"%string]).
Proof.
  apply (recognize_app (E := scenario_engine) models_AB [item0] [item0]);
    reflexivity.
Defined.

Lemma recognize_all_fail_first_witness :
  exists probabilities guesses,
    recognize (E := unscorable_engine) models_AB [item0] = Ret (probabilities, guesses)
    /\ nth_error guesses 0 = Some "A"%string.
Proof.
  apply (recognize_all_fail_first (E := unscorable_engine) models_AB [item0] 0
           [[1%float]] [1] "A"%string 2 [("B"%string, 3)]).
  - reflexivity.
  - repeat constructor; simpl; intuition discriminate.
  - reflexivity.
  - intros w m _. exists EngineError. reflexivity.
Defined.

End RecognizerMore.

(** ** Further properties of the selectors *)

Module SelectorMore.
Import FloatOrder PyFacts Selectors SelectorFacts DICFacts CVFacts SelectorSpec Examples MoreExamples.

Lemma dict_get_None {V} (d : dict V) k :
  dict_get d k = None <-> ~ In k (dict_keys d).
Proof.
  induction d as [|[k' v] d IH]; simpl; [tauto|].
  destruct (String.eqb_spec k' k) as [->|Hne].
  - split; [discriminate|]. intros H. exfalso. apply H. now left.
  - rewrite IH. tauto.
Qed.

Section WithEngine.
Context {E : Engine}.

(** X6: the constructor raises [KeyError] exactly when the word is
    missing from one of the two mappings; otherwise the instance holds the
    two mappings, the word's entries in them and the configuration. *)
Theorem init_spec (all_word_sequences : dict (list sequence))
    (all_word_Xlengths : dict Xlengths) (this_word : word)
    (n_constant min_n_components max_n_components random_state : Z)
    (verbose : bool) :
  let r := init all_word_sequences all_word_Xlengths this_word n_constant
             min_n_components max_n_components random_state verbose in
  (r = Raise KeyError
   <-> ~ In this_word (dict_keys all_word_sequences)
       \/ ~ In this_word (dict_keys all_word_Xlengths))
  /\ (forall e, r = Raise e -> e = KeyError)
  /\ (forall s, r = Ret s ->
        dict_get all_word_sequences this_word = Some (sequences s)
        /\ dict_get all_word_Xlengths this_word = Some (X s, lengths s)
        /\ s = mkSelector all_word_sequences all_word_Xlengths (sequences s) (X s)
                 (lengths s) this_word n_constant min_n_components max_n_components
                 random_state verbose).
Proof.
  cbv zeta. unfold init, dict_getitem.
  rewrite <- !dict_get_None.
  destruct (dict_get all_word_sequences this_word) as [seqs|].
  - destruct (dict_get all_word_Xlengths this_word) as [[x l]|].
    + split; [|split].
      * split; [discriminate|]. intros [H|H]; discriminate.
      * discriminate.
      * intros s [= <-]. simpl. auto.
    + split; [|split].
      * split; auto.
      * now intros e [= <-].
      * discriminate.
  - split; [|split].
    + split; auto.
    + now intros e [= <-].
    + discriminate.
Qed.

(** X7: [SelectorConstant.select] attempts exactly one fit, with
    [n_constant] states on the word's data, whatever the range of state
    counts is; it returns the fitted model, or [None] when the fit
    raises, and leaves the instance as it is. *)
Theorem SelectorConstant_select_one_fit (s : ModelSelector) (lg : list event) :
  exists r,
    select SelectorConstant s lg
    = (Ret r, s, lg ++ [EvFit (n_constant s) (random_state s) (X s) (lengths s)])
    /\ (forall m, r = Some m
          <-> GaussianHMM_fit (n_constant s) (random_state s) (X s) (lengths s) = Ret m)
    /\ (r = None
        <-> exists e,
              GaussianHMM_fit (n_constant s) (random_state s) (X s) (lengths s) = Raise e).
Proof.
  rewrite SelectorConstant_select_run. eexists. split; [reflexivity|].
  unfold fit_opt.
  destruct (GaussianHMM_fit (n_constant s) _ _ _) as [m|e]; split.
  - intros m'. split; congruence.
  - split; [discriminate|]. intros [e H]. discriminate.
  - intros m'. split; discriminate.
  - split; eauto.
Qed.

(** X8: with an empty range of state counts ([max_n_components <=
    min_n_components]) the three searching selectors return [None],
    call the engine not at all and leave the instance as it is. *)
Theorem select_empty_range (c : selector) (s : ModelSelector) (lg : list event) :
  c <> SelectorConstant ->
  max_n_components s <= min_n_components s ->
  select c s lg = (Ret None, s, lg).
Proof.
  intros Hc Hle. pose proof (range_nil _ _ Hle) as Hr.
  destruct c; [congruence| | |].
  - rewrite SelectorBIC_select_run, Hr. simpl. now rewrite app_nil_r.
  - rewrite SelectorDIC_select_run, Hr. simpl. now rewrite app_nil_r.
  - destruct (le_lt_dec (List.length (sequences s)) 2) as [Hn|Hn].
    + rewrite (SelectorCV_select_nosplit_run s lg Hn), Hr. simpl. now rewrite app_nil_r.
    + rewrite (SelectorCV_select_split_run s lg Hn), Hr. simpl. now rewrite app_nil_r.
Qed.

Lemma fit_opt_ext s s' k :
  X s = X s' -> lengths s = lengths s' -> random_state s = random_state s' ->
  fit_opt s k = fit_opt s' k.
Proof. intros H1 H2 H3. unfold fit_opt. now rewrite H1, H2, H3. Qed.

Lemma bic_candidate_ext s s' k :
  X s = X s' -> lengths s = lengths s' -> random_state s = random_state s' ->
  bic_candidate s k = bic_candidate s' k.
Proof.
  intros H1 H2 H3. unfold bic_candidate.
  now rewrite (fit_opt_ext s s' k H1 H2 H3), H1, H2.
Qed.

Lemma nosplit_candidate_ext s s' k :
  X s = X s' -> lengths s = lengths s' -> random_state s = random_state s' ->
  nosplit_candidate s k = nosplit_candidate s' k.
Proof.
  intros H1 H2 H3. unfold nosplit_candidate.
  now rewrite (fit_opt_ext s s' k H1 H2 H3), H1, H2.
Qed.

Lemma full_data_events_ext s s' k :
  X s = X s' -> lengths s = lengths s' -> random_state s = random_state s' ->
  full_data_events s k = full_data_events s' k.
Proof.
  intros H1 H2 H3. unfold full_data_events, fit_event.
  now rewrite (fit_opt_ext s s' k H1 H2 H3), H1, H2, H3.
Qed.

(** X9: the constant, the penalized and the cross-validated selector read
    only the word's own data and the configuration: two instances that
    agree on [sequences], [X], [lengths], [n_constant], the range and the
    seed get the same model and make the same engine calls, whatever their
    vocabularies [words] and [hwords] hold. *)
Theorem select_own_data_only (c : selector) (s s' : ModelSelector)
    (lg lg' : list event) :
  c <> SelectorDIC ->
  sequences s = sequences s' -> X s = X s' -> lengths s = lengths s' ->
  n_constant s = n_constant s' ->
  min_n_components s = min_n_components s' ->
  max_n_components s = max_n_components s' ->
  random_state s = random_state s' ->
  fst (fst (select c s lg)) = fst (fst (select c s' lg'))
  /\ exists evs, snd (select c s lg) = lg ++ evs /\ snd (select c s' lg') = lg' ++ evs.
Proof.
  intros Hc Hseq HX Hl Hn Hmin Hmax Hseed.
  destruct c; [| |congruence|].
  - rewrite !SelectorConstant_select_run. simpl.
    unfold fit_event. rewrite (fit_opt_ext s s' _ HX Hl Hseed), Hn, HX, Hl, Hseed.
    split; [reflexivity|]. eexists. split; reflexivity.
  - rewrite !SelectorBIC_select_run. simpl. rewrite Hmin, Hmax.
    rewrite (map_ext _ _ (fun k => bic_candidate_ext s s' k HX Hl Hseed)).
    split; [reflexivity|]. eexists. split; [reflexivity|].
    f_equal. apply flat_map_ext. intros k. symmetry.
    now apply full_data_events_ext.
  - destruct (le_lt_dec (List.length (sequences s)) 2) as [Hlen|Hlen].
    + rewrite (SelectorCV_select_nosplit_run s lg Hlen).
      rewrite (SelectorCV_select_nosplit_run s' lg') by (rewrite <- Hseq; exact Hlen).
      simpl. rewrite Hmin, Hmax.
      rewrite (map_ext _ _ (fun k => nosplit_candidate_ext s s' k HX Hl Hseed)).
      split; [reflexivity|]. eexists. split; [reflexivity|].
      f_equal. apply flat_map_ext. intros k. symmetry.
      now apply full_data_events_ext.
    + rewrite (SelectorCV_select_split_run s lg Hlen).
      rewrite (SelectorCV_select_split_run s' lg') by (rewrite <- Hseq; exact Hlen).
      simpl. rewrite Hmin, Hmax, Hseq, Hseed.
      split; [reflexivity|]. eexists. split; reflexivity.
Qed.

End WithEngine.

Lemma select_empty_range_witness :
  select (E := scenario_engine) SelectorDIC selector_empty_range []
  = (Ret None, selector_empty_range, []).
Proof.
  apply (select_empty_range (E := scenario_engine) SelectorDIC selector_empty_range []).
  - discriminate.
  - simpl. lia.
Defined.

Lemma select_own_data_only_witness :
  fst (fst (select (E := scenario_engine) SelectorBIC selector_A []))
  = fst (fst (select (E := scenario_engine) SelectorBIC selector_AB []))
  /\ exists evs,
       snd (select (E := scenario_engine) SelectorBIC selector_A []) = [] ++ evs
       /\ snd (select (E := scenario_engine) SelectorBIC selector_AB []) = [] ++ evs.
Proof.
  apply (select_own_data_only (E := scenario_engine) SelectorBIC selector_A selector_AB
           [] []); try reflexivity.
  discriminate.
Defined.

End SelectorMore.

Module SelectorMoreDIC.
Import FloatOrder PyFacts Selectors SelectorFacts DICFacts CVFacts SelectorSpec SelectorMore Examples MoreExamples.


Lemma filter_out_length (x : word) (l : list word) :
  NoDup l -> In x l ->
  S (List.length (filter (fun w => negb (String.eqb w x)) l)) = List.length l.
Proof.
  induction l as [|y l IH]; intros Hnd Hin; [destruct Hin|].
  apply NoDup_cons_iff in Hnd as [Hy Hnd]. simpl.
  destruct (String.eqb_spec y x) as [->|Hne]; simpl.
  - f_equal. clear IH Hin Hnd. induction l as [|z l IH]; [reflexivity|]. simpl.
    destruct (String.eqb_spec z x) as [->|Hz]; simpl.
    + exfalso. apply Hy. now left.
    + f_equal. apply IH. intros H. apply Hy. now right.
  - f_equal. apply IH; [assumption|]. destruct Hin as [->|Hin]; [congruence|assumption].
Qed.

Section WithEngine.
Context {E : Engine}.

(** The model kept by the loop of [SelectorDIC.select]: the one of the last
    candidate whose score exceeds negative infinity. *)
Lemma track_dic_last cs : forall bm,
  (fold_left track_dic cs bm = bm
   /\ forall m sc, In (Some (m, sc)) cs -> (neg_infinity <? sc)%float = false)
  \/ (exists pre m sc post,
        cs = pre ++ Some (m, sc) :: post
        /\ (neg_infinity <? sc)%float = true
        /\ (forall m' sc', In (Some (m', sc')) post -> (neg_infinity <? sc')%float = false)
        /\ fold_left track_dic cs bm = Some m).
Proof.
  induction cs as [|c cs IH]; intros bm; simpl.
  - left. split; [reflexivity|]. intros ? ? [].
  - destruct (IH (track_dic bm c)) as [[Heq Hall]|(pre & m & sc & post & -> & Hsc & Hpost & Heq)].
    + destruct c as [[m sc]|]; simpl in *.
      * destruct (neg_infinity <? sc)%float eqn:Hsc.
        -- right. exists [], m, sc, cs. simpl. auto.
        -- left. split; [assumption|]. intros m' sc' [[= -> ->]|H]; eauto.
      * left. split; [assumption|]. intros m' sc' [H|H]; [discriminate|eauto].
    + right. exists (c :: pre), m, sc, post. simpl. auto.
Qed.

(** X10: [SelectorDIC.select] returns the model of the last state count
    of the range whose DIC score exceeds negative infinity, and [None]
    exactly when no state count of the range has such a score. *)
Theorem SelectorDIC_select_last (s : ModelSelector) (lg : list event) :
  exists bm,
    fst (fst (select SelectorDIC s lg)) = Ret bm
    /\ (bm = None
        <-> forall k m sc,
              min_n_components s <= k < max_n_components s ->
              dic_scored s k m sc -> (neg_infinity <? sc)%float = false)
    /\ (forall m, bm = Some m ->
          exists k sc,
            min_n_components s <= k < max_n_components s
            /\ dic_scored s k m sc
            /\ (neg_infinity <? sc)%float = true
            /\ forall k' m' sc',
                 k < k' < max_n_components s ->
                 dic_scored s k' m' sc' -> (neg_infinity <? sc')%float = false).
Proof.
  rewrite SelectorDIC_select_run. simpl. eexists. split; [reflexivity|].
  set (ks := range (min_n_components s) (max_n_components s)).
  destruct (track_dic_last (map (dic_candidate s) ks) None)
    as [[Heq Hall]|(pre & m & sc & post & Hcs & Hsc & Hpost & Heq)]; rewrite Heq.
  - split; [|discriminate]. split; [|reflexivity].
    intros _ k m sc Hk Hd. apply (Hall m). apply in_map_iff.
    exists k. split; [now apply dic_candidate_scored|now apply range_In].
  - apply map_eq_app in Hcs as (ks1 & ks2' & Hks & Hpre & Hcs).
    apply map_eq_cons in Hcs as (k & ks2 & -> & Hk & Hpost').
    destruct (range_split _ _ _ _ _ Hks) as [Hks2 Hkr].
    apply dic_candidate_scored in Hk.
    split.
    + split; [discriminate|]. intros H. rewrite (H k m sc Hkr Hk) in Hsc. discriminate.
    + intros m0 [= <-]. exists k, sc. split; [lia|]. split; [assumption|].
      split; [assumption|].
      intros k' m' sc' Hk' Hd. apply (Hpost m'). rewrite <- Hpost'.
      apply in_map_iff. exists k'. split; [now apply dic_candidate_scored|].
      rewrite Hks2. apply range_In. lia.
Qed.



(** X12: for an instance built by the constructor from a vocabulary of
    distinct words, the divisor [M - 1] is the number of the other words'
    scores that are summed: the DIC score of a candidate is its score on
    the word's own data minus the sum of its scores on the other words'
    data divided by the number of these scores. *)
Theorem dic_score_own_minus_mean (all_word_sequences : dict (list sequence))
    (all_word_Xlengths : dict Xlengths) (this_word : word)
    (n_constant min_n_components max_n_components random_state : Z)
    (verbose : bool) (s : ModelSelector) (k : Z) (m : Model) (sc : float) :
  NoDup (dict_keys all_word_sequences) ->
  init all_word_sequences all_word_Xlengths this_word n_constant
    min_n_components max_n_components random_state verbose = Ret s ->
  dic_scored s k m sc ->
  exists ownScore competitorScores,
    Model_score m (X s) (lengths s) = Ret ownScore
    /\ Forall2 (competitor_score s m) (others s) competitorScores
    /\ len competitorScores = len (words s) - 1
    /\ competitorScores <> []
    /\ sc = (ownScore
             - fold_left PrimFloat.add competitorScores 0
               / Z2float (len competitorScores))%float.
Proof.
  intros Hnd Hinit (Hfit & own & vs & Hown & HF & Hne & ->).
  assert (Hs : words s = all_word_sequences /\ Selectors.this_word s = this_word
               /\ In this_word (dict_keys all_word_sequences)).
  { unfold init, dict_getitem in Hinit.
    destruct (dict_get all_word_sequences this_word) as [seqs|] eqn:Hget; [|discriminate].
    destruct (dict_get all_word_Xlengths this_word) as [[x l]|]; [|discriminate].
    injection Hinit as <-. simpl. repeat split.
    apply dict_get_In in Hget. change this_word with (fst (this_word, seqs)).
    now apply in_map. }
  destruct Hs as (Hw & Htw & Hin).
  assert (Hlen : len vs = len (words s) - 1).
  { apply Forall2_length in HF. unfold len. rewrite <- HF. unfold others.
    rewrite Hw, Htw.
    pose proof (filter_out_length this_word _ Hnd Hin) as H.
    unfold dict_keys in *. rewrite length_map in *. rewrite <- H, Nat2Z.inj_succ.
    unfold Z.succ. symmetry. apply Z.add_simpl_r. }
  exists own, vs. repeat split; try assumption.
  - intros ->. apply Hne. rewrite <- Hlen. reflexivity.
  - now rewrite Hlen.
Qed.

End WithEngine.


Lemma dic_score_own_minus_mean_witness :
  exists ownScore competitorScores,
    @Model_score dic_engine 2 (Selectors.X selector_AB) (lengths selector_AB)
    = Ret ownScore
    /\ Forall2 (competitor_score (E := dic_engine) selector_AB 2) (others selector_AB)
         competitorScores
    /\ len competitorScores = len (words selector_AB) - 1
    /\ competitorScores <> []
    /\ 20%float = (ownScore
                   - fold_left PrimFloat.add competitorScores 0
                     / Z2float (len competitorScores))%float.
Proof.
  apply (dic_score_own_minus_mean (E := dic_engine)
           [("A"%string, one_sequence); ("B"%string, [[[2%float]; [2%float]]])]
           [("A"%string, item0); ("B"%string, data_B)]
           "A"%string 3 2 4 14 false selector_AB 2 2 20%float).
  - repeat constructor; simpl; intuition discriminate.
  - reflexivity.
  - split; [reflexivity|]. exists (-10)%float, [(-30)%float].
    split; [reflexivity|]. split.
    + constructor; [|constructor]. exists data_B. split; reflexivity.
    + split; [discriminate|reflexivity].
Defined.

End SelectorMoreDIC.

Module SelectorMoreCV.
Import FloatOrder PyFacts Selectors SelectorFacts DICFacts CVFacts SelectorSpec Examples MoreExamples.

Section WithEngine.
Context {E : Engine}.

Lemma nosplit_candidate_spec s k m sc :
  nosplit_candidate s k = Some (m, sc)
  <-> GaussianHMM_fit k (random_state s) (X s) (lengths s) = Ret m
      /\ Model_score m (X s) (lengths s) = Ret sc.
Proof.
  unfold nosplit_candidate, fit_opt.
  destruct (GaussianHMM_fit k _ _ _) as [m'|e].
  - split.
    + destruct (Model_score m' _ _) eqn:Hs; [|discriminate].
      intros [= <- <-]. auto.
    + intros [[= ->] ->]. reflexivity.
  - split; [discriminate|]. intros [H _]. discriminate.
Qed.

(** X13: on a word with 2 or fewer sequences [SelectorCV.select] returns
    the model of a state count that was fitted and scored on [self.X] with
    a score above negative infinity which no fitted and scored state count
    of the range exceeds, and [None] exactly when no state count has a
    score above negative infinity. *)
Theorem SelectorCV_select_nosplit_max (s : ModelSelector) (lg : list event) :
  len (sequences s) <= 2 ->
  exists r,
    fst (fst (select SelectorCV s lg)) = Ret r
    /\ (r = None
        <-> forall k m sc,
              min_n_components s <= k < max_n_components s ->
              GaussianHMM_fit k (random_state s) (X s) (lengths s) = Ret m ->
              Model_score m (X s) (lengths s) = Ret sc ->
              (neg_infinity <? sc)%float = false)
    /\ (forall m, r = Some m ->
          exists k sc,
            min_n_components s <= k < max_n_components s
            /\ GaussianHMM_fit k (random_state s) (X s) (lengths s) = Ret m
            /\ Model_score m (X s) (lengths s) = Ret sc
            /\ (neg_infinity <? sc)%float = true
            /\ forall k' m' sc',
                 min_n_components s <= k' < max_n_components s ->
                 GaussianHMM_fit k' (random_state s) (X s) (lengths s) = Ret m' ->
                 Model_score m' (X s) (lengths s) = Ret sc' ->
                 (sc <? sc')%float = false).
Proof.
  intros Hlen. assert (Hn : (List.length (sequences s) <= 2)%nat).
  { unfold len in Hlen. lia. }
  rewrite (SelectorCV_select_nosplit_run s lg Hn). simpl.
  eexists. split; [reflexivity|].
  set (ks := range (min_n_components s) (max_n_components s)).
  set (cs := map (nosplit_candidate s) ks).
  assert (Hcs : forall m sc, In (Some (m, sc)) cs <->
            exists k, min_n_components s <= k < max_n_components s
                      /\ GaussianHMM_fit k (random_state s) (X s) (lengths s) = Ret m
                      /\ Model_score m (X s) (lengths s) = Ret sc).
  { intros m sc. unfold cs. rewrite in_map_iff. split.
    - intros (k & Hk & Hin). exists k. split; [now apply range_In|].
      now apply nosplit_candidate_spec.
    - intros (k & Hin & Hk). exists k. split; [now apply nosplit_candidate_spec|].
      now apply range_In. }
  pose proof (track_fold_best higher higher_irrefl higher_trans cs (neg_infinity, None))
    as [_ Hbest].
  destruct (track_fold_from higher higher_trans cs (neg_infinity, None))
    as [Heq|(m & sc & Hin & Heq & Hb)]; rewrite Heq in *; simpl in *.
  - split; [|discriminate]. split; [|reflexivity].
    intros _ k m sc Hk Hfit Hsc. apply (Hbest m). apply Hcs. eauto.
  - split.
    + split; [discriminate|]. intros H. exfalso.
      apply Hcs in Hin as (k & Hk & Hfit & Hsc).
      unfold higher in Hb. rewrite (H k m sc Hk Hfit Hsc) in Hb. discriminate.
    + intros m0 [= <-]. pose proof Hin as Hin'.
      apply Hcs in Hin' as (k & Hk & Hfit & Hsc).
      exists k, sc. split; [assumption|]. split; [assumption|]. split; [assumption|].
      split; [exact Hb|].
      intros k' m' sc' Hk' Hfit' Hsc'. apply (Hbest m'). apply Hcs. eauto.
Qed.

Lemma cv_outcome_Scored seqs seed k fold m v :
  cv_outcome seqs seed k fold = Scored m v ->
  GaussianHMM_fit k seed (fst (fold_data seqs (fst fold)))
    (snd (fold_data seqs (fst fold))) = Ret m
  /\ Model_score m (fst (fold_data seqs (snd fold)))
       (snd (fold_data seqs (snd fold))) = Ret v.
Proof.
  unfold cv_outcome. destruct (GaussianHMM_fit k seed _ _) as [m'|]; [|discriminate].
  destruct (Model_score m' _ _) eqn:Hs; [|discriminate].
  intros [= <- <-]. auto.
Qed.

Lemma cv_outcome_ScoreFailed seqs seed k fold m e :
  cv_outcome seqs seed k fold = ScoreFailed m e ->
  GaussianHMM_fit k seed (fst (fold_data seqs (fst fold)))
    (snd (fold_data seqs (fst fold))) = Ret m.
Proof.
  unfold cv_outcome. destruct (GaussianHMM_fit k seed _ _) as [m'|]; [|discriminate].
  destruct (Model_score m' _ _); [discriminate|]. now intros [= <- _].
Qed.

(** X14: on a word with more than 2 sequences, a model that
    [SelectorCV.select] returns was fitted on the training data of one of
    the three folds, which holds fewer sequences than the word has, and was
    scored on the held-out data of that fold; the mean it was kept for is
    exceeded by no mean computed for any state count. *)
Theorem SelectorCV_select_split_model (s : ModelSelector) (lg : list event) (m : Model) :
  2 < len (sequences s) ->
  fst (fst (select SelectorCV s lg)) = Ret (Some m) ->
  let seqs := sequences s in
  let seed := random_state s in
  let folds := folds3 (List.length seqs) in
  let means := flat_map (fun k => cv_means seqs seed k folds [])
                 (range (min_n_components s) (max_n_components s)) in
  (exists k fold v,
      min_n_components s <= k < max_n_components s
      /\ In fold folds
      /\ GaussianHMM_fit k seed (fst (fold_data seqs (fst fold)))
           (snd (fold_data seqs (fst fold))) = Ret m
      /\ Model_score m (fst (fold_data seqs (snd fold)))
           (snd (fold_data seqs (snd fold))) = Ret v
      /\ (List.length (snd (fold_data seqs (fst fold))) < List.length seqs)%nat)
  /\ (exists mean,
        In (Some (m, mean)) means
        /\ forall m' mean', In (Some (m', mean')) means -> (mean <? mean')%float = false).
Proof.
  intros Hlen. assert (Hn : (3 <= List.length (sequences s))%nat).
  { unfold len in Hlen. lia. }
  rewrite (SelectorCV_select_split_run s lg Hn). cbv zeta. cbn [fst].
  set (seqs := sequences s). set (seed := random_state s).
  set (folds := folds3 (List.length seqs)).
  set (means := flat_map _ _).
  intros [= Hm].
  pose proof (track_fold_best higher higher_irrefl higher_trans means (neg_infinity, None))
    as [_ Hbest].
  destruct (track_fold_from higher higher_trans means (neg_infinity, None))
    as [Heq|(m0 & sc & Hin & Heq & Hb)]; rewrite Heq in *; cbn [fst snd] in *;
    [discriminate|].
  injection Hm as ->. split.
  - pose proof Hin as Hin'. apply in_flat_map in Hin' as (k & Hk & Hin').
    apply cv_means_fit in Hin' as (fold & v & Hfold & Hout).
    apply cv_outcome_Scored in Hout as [Hfit Hsc].
    exists k, fold, v. split; [now apply range_In|]. split; [assumption|].
    split; [assumption|]. split; [assumption|].
    unfold fold_data. simpl. rewrite !length_map.
    now destruct (folds3_valid _ fold Hn Hfold) as (_ & _ & Hlt).
  - exists sc. split; [assumption|]. intros m' mean' Hin'. now apply (Hbest m').
Qed.

Lemma processed_length seqs seed k folds :
  (List.length (processed seqs seed k folds) <= List.length folds)%nat.
Proof.
  induction folds as [|fd folds IH]; simpl; [lia|].
  destruct (cv_outcome seqs seed k fd); simpl; lia.
Qed.

Lemma processed_short seqs seed k folds :
  (List.length (processed seqs seed k folds) < List.length folds)%nat ->
  exists fold m e, In fold folds /\ cv_outcome seqs seed k fold = ScoreFailed m e.
Proof.
  induction folds as [|fd folds IH]; simpl; [lia|].
  destruct (cv_outcome seqs seed k fd) as [|m e|m v] eqn:Hout; simpl; intros Hlt.
  - destruct IH as (fold & m & e & Hin & Hf); [lia|]. exists fold, m, e. auto.
  - exists fd, m, e. auto.
  - destruct IH as (fold & m' & e & Hin & Hf); [lia|]. exists fold, m', e. auto.
Qed.

Lemma cv_outcome_ScoreFailed_score seqs seed k fold m e :
  cv_outcome seqs seed k fold = ScoreFailed m e ->
  Model_score m (fst (fold_data seqs (snd fold)))
    (snd (fold_data seqs (snd fold))) = Raise e.
Proof.
  unfold cv_outcome. destruct (GaussianHMM_fit k seed _ _) as [m'|]; [|discriminate].
  destruct (Model_score m' _ _) eqn:Hs; [discriminate|]. now intros [= <- <-].
Qed.

Lemma attempted_cv_events_all seqs seed folds ks :
  attempted (flat_map (cv_events seqs seed folds) ks)
  = flat_map (fun k => repeat k (List.length (processed seqs seed k folds))) ks.
Proof.
  induction ks as [|k ks IH]; [reflexivity|].
  cbn [flat_map]. now rewrite attempted_app, attempted_cv_events, IH.
Qed.

(** X15: on a word with more than 2 sequences [SelectorCV.select]
    attempts, for the state counts of the range in order, [n k] fits in a
    row with [k] states, where [n k] is at least one and at most three:
    three if no scoring of a held-out fold raises for [k], and fewer only
    if for some fold the fit with [k] states succeeds and the scoring of
    the held-out data raises.  On a word with 2 or fewer sequences it
    attempts exactly one fit per state count, in order. *)
Theorem SelectorCV_select_fit_count (s : ModelSelector) (lg : list event) :
  let ks := range (min_n_components s) (max_n_components s) in
  let seqs := sequences s in
  let seed := random_state s in
  let folds := folds3 (List.length seqs) in
  exists evs,
    snd (select SelectorCV s lg) = lg ++ evs
    /\ (2 < len seqs ->
          exists n : Z -> nat,
            attempted evs = flat_map (fun k => repeat k (n k)) ks
            /\ forall k,
                 (1 <= n k <= 3)%nat
                 /\ ((forall fold m e, In fold folds ->
                        GaussianHMM_fit k seed (fst (fold_data seqs (fst fold)))
                          (snd (fold_data seqs (fst fold))) = Ret m ->
                        Model_score m (fst (fold_data seqs (snd fold)))
                          (snd (fold_data seqs (snd fold))) <> Raise e) ->
                     n k = 3%nat)
                 /\ ((n k < 3)%nat ->
                     exists fold m e,
                       In fold folds
                       /\ GaussianHMM_fit k seed (fst (fold_data seqs (fst fold)))
                            (snd (fold_data seqs (fst fold))) = Ret m
                       /\ Model_score m (fst (fold_data seqs (snd fold)))
                            (snd (fold_data seqs (snd fold))) = Raise e))
    /\ (len seqs <= 2 -> attempted evs = ks).
Proof.
  cbv zeta. destruct (le_lt_dec (List.length (sequences s)) 2) as [Hn|Hn].
  - rewrite (SelectorCV_select_nosplit_run s lg Hn). cbn [fst snd]. eexists.
    split; [reflexivity|]. split.
    + intros H. unfold len in H. lia.
    + intros _. apply attempted_flat_map, attempted_full_data_events.
  - rewrite (SelectorCV_select_split_run s lg Hn). cbn [fst snd]. eexists.
    split; [reflexivity|]. split; [|intros H; unfold len in H; lia].
    intros _.
    set (folds := folds3 (List.length (sequences s))).
    assert (H3 : List.length folds = 3%nat).
    { unfold folds. destruct (folds3_shape _ Hn) as (a & b & c & _ & ->). reflexivity. }
    exists (fun k => List.length (processed (sequences s) (random_state s) k folds)).
    split; [apply attempted_cv_events_all|].
    intros k.
    pose proof (processed_length (sequences s) (random_state s) k folds) as Hle.
    pose proof (processed_not_nil (sequences s) (random_state s) k folds
                  (folds3_not_nil _ Hn)) as Hne.
    rewrite H3 in Hle. split; [|split].
    + destruct (processed (sequences s) (random_state s) k folds);
        [congruence|]. cbn [List.length] in *. lia.
    + intros Hok. rewrite processed_all; [assumption|].
      intros fold m e Hin Hout.
      apply (Hok fold m e Hin).
      * now apply cv_outcome_ScoreFailed in Hout.
      * now apply cv_outcome_ScoreFailed_score in Hout.
    + intros Hlt. rewrite <- H3 in Hlt.
      apply processed_short in Hlt as (fold & m & e & Hin & Hout).
      exists fold, m, e. split; [assumption|]. split.
      * now apply cv_outcome_ScoreFailed in Hout.
      * now apply cv_outcome_ScoreFailed_score in Hout.
Qed.

End WithEngine.

Lemma SelectorCV_select_nosplit_max_witness :
  exists r,
    fst (fst (select (E := scenario_engine) SelectorCV selector_A [])) = Ret r
    /\ r <> None.
Proof.
  destruct (SelectorCV_select_nosplit_max (E := scenario_engine) selector_A [])
    as (r & Hsel & Hnone & _).
  - vm_compute. discriminate.
  - exists r. split; [assumption|]. intros Hr.
    pose proof (proj1 Hnone Hr 2 2 (-50)%float) as Hf.
    discriminate Hf; [split; vm_compute; congruence|reflexivity|reflexivity].
Defined.

Lemma SelectorCV_select_split_model_witness :
  exists k fold v,
    2 <= k < 3
    /\ In fold (folds3 3)
    /\ @GaussianHMM_fit total_engine k 14
         (fst (fold_data three_sequences (fst fold)))
         (snd (fold_data three_sequences (fst fold))) = Ret 2
    /\ @Model_score total_engine 2 (fst (fold_data three_sequences (snd fold)))
         (snd (fold_data three_sequences (snd fold))) = Ret v
    /\ (List.length (snd (fold_data three_sequences (fst fold))) < 3)%nat.
Proof.
  destruct (SelectorCV_select_split_model (E := total_engine) selector_C [] 2) as [H _].
  - reflexivity.
  - reflexivity.
  - exact H.
Defined.

End SelectorMoreCV.

Module SelectorMoreLog.
Import FloatOrder PyFacts Selectors SelectorFacts DICFacts CVFacts SelectorSpec.

Section WithEngine.
Context {E : Engine}.

(** *** The engine calls *)

Lemma flat_map_scores_fitted (f : Z -> list event) (ks : list Z) (seed : Z) :
  (forall k m x l, In (EvScore m x l) (f k) ->
     exists k' x' l', In (EvFit k' seed x' l') (f k)
                      /\ GaussianHMM_fit k' seed x' l' = Ret m) ->
  forall m x l, In (EvScore m x l) (flat_map f ks) ->
    exists k' x' l', In (EvFit k' seed x' l') (flat_map f ks)
                     /\ GaussianHMM_fit k' seed x' l' = Ret m.
Proof.
  intros H m x l Hin. apply in_flat_map in Hin as (k & Hk & Hin).
  destruct (H _ _ _ _ Hin) as (k' & x' & l' & Hfit & Heq).
  exists k', x', l'. split; [|assumption]. apply in_flat_map. eauto.
Qed.

Lemma full_data_events_scores s k m x l :
  In (EvScore m x l) (full_data_events s k) ->
  exists k' x' l', In (EvFit k' (random_state s) x' l') (full_data_events s k)
                   /\ GaussianHMM_fit k' (random_state s) x' l' = Ret m.
Proof.
  unfold full_data_events, fit_event. intros [H|H]; [discriminate|].
  destruct (fit_opt s k) as [m'|] eqn:Hfit; [|destruct H].
  destruct H as [[= -> _ _]|[]]. apply fit_opt_Some in Hfit.
  exists k, (X s), (lengths s). split; [now left|assumption].
Qed.

Lemma dic_sum_events_model s m ws : forall acc m' x l,
  In (EvScore m' x l) (snd (dic_sum s m ws acc)) -> m' = m.
Proof.
  induction ws as [|w ws IH]; intros acc m' x l; simpl; [tauto|].
  destruct (dict_getitem (hwords s) w) as [xl|e]; [|intros []].
  destruct (Model_score m (fst xl) (snd xl)) as [v|e].
  - specialize (IH (acc + v)%float m' x l).
    destruct (dic_sum s m ws (acc + v)) as [r evs]. simpl in *.
    intros [[= -> _ _]|H]; [reflexivity|auto].
  - simpl. intros [[= -> _ _]|[]]. reflexivity.
Qed.

Lemma dic_events_scores s k m x l :
  In (EvScore m x l) (dic_events s k) ->
  exists k' x' l', In (EvFit k' (random_state s) x' l') (dic_events s k)
                   /\ GaussianHMM_fit k' (random_state s) x' l' = Ret m.
Proof.
  unfold dic_events, fit_event. intros [H|H]; [discriminate|].
  destruct (fit_opt s k) as [m'|] eqn:Hfit; [|destruct H].
  apply fit_opt_Some in Hfit.
  assert (m = m') as ->.
  { destruct H as [[= -> _ _]|H]; [reflexivity|].
    destruct (Model_score m' (X s) (lengths s)); [|destruct H].
    now apply dic_sum_events_model in H. }
  exists k, (X s), (lengths s). split; [now left|assumption].
Qed.

Lemma cv_fold_events_scores seqs seed k fold m x l :
  In (EvScore m x l) (cv_fold_events seqs seed k fold) ->
  exists k' x' l', In (EvFit k' seed x' l') (cv_fold_events seqs seed k fold)
                   /\ GaussianHMM_fit k' seed x' l' = Ret m.
Proof.
  unfold cv_fold_events. cbv zeta. intros [H|H]; [discriminate|].
  exists k, (fst (fold_data seqs (fst fold))), (snd (fold_data seqs (fst fold))).
  split; [now left|].
  unfold cv_outcome in *. cbv zeta in *.
  destruct (GaussianHMM_fit k seed _ _) as [m'|e]; [|destruct H].
  destruct (Model_score m' _ _); destruct H as [[= -> _ _]|[]]; reflexivity.
Qed.

Lemma cv_events_scores seqs seed folds k m x l :
  In (EvScore m x l) (cv_events seqs seed folds k) ->
  exists k' x' l', In (EvFit k' seed x' l') (cv_events seqs seed folds k)
                   /\ GaussianHMM_fit k' seed x' l' = Ret m.
Proof.
  unfold cv_events. intros Hin. apply in_flat_map in Hin as (fold & Hf & Hin).
  destruct (cv_fold_events_scores _ _ _ _ _ _ _ Hin) as (k' & x' & l' & Hfit & Heq).
  exists k', x', l'. split; [|assumption]. apply in_flat_map. eauto.
Qed.

(** X16: a selector scores only models it has fitted: every scoring that
    [select] makes is on a model that a fit attempted in the same call
    returned. *)
Theorem select_scores_fitted_models (c : selector) (s : ModelSelector) (lg : list event) :
  exists evs,
    snd (select c s lg) = lg ++ evs
    /\ forall m x l, In (EvScore m x l) evs ->
         exists k x' l',
           In (EvFit k (random_state s) x' l') evs
           /\ GaussianHMM_fit k (random_state s) x' l' = Ret m.
Proof.
  destruct c.
  - rewrite SelectorConstant_select_run. simpl. eexists. split; [reflexivity|].
    intros m x l [H|[]]. discriminate.
  - rewrite SelectorBIC_select_run. simpl. eexists. split; [reflexivity|].
    apply flat_map_scores_fitted. apply full_data_events_scores.
  - rewrite SelectorDIC_select_run. simpl. eexists. split; [reflexivity|].
    apply flat_map_scores_fitted. apply dic_events_scores.
  - destruct (le_lt_dec (List.length (sequences s)) 2) as [Hn|Hn].
    + rewrite (SelectorCV_select_nosplit_run s lg Hn). simpl. eexists.
      split; [reflexivity|].
      apply flat_map_scores_fitted. apply full_data_events_scores.
    + rewrite (SelectorCV_select_split_run s lg Hn). simpl. eexists.
      split; [reflexivity|].
      apply flat_map_scores_fitted. intros k. apply cv_events_scores.
Qed.

Lemma full_data_events_fits s k k' sd x l :
  In (EvFit k' sd x l) (full_data_events s k) ->
  sd = random_state s /\ x = X s /\ l = lengths s.
Proof.
  unfold full_data_events, fit_event. intros [[= _ <- <- <-]|H]; [auto|].
  destruct (fit_opt s k); [|destruct H]. destruct H as [H|[]]. discriminate.
Qed.

Lemma dic_sum_no_fit s m ws : forall acc k sd x l,
  ~ In (EvFit k sd x l) (snd (dic_sum s m ws acc)).
Proof.
  induction ws as [|w ws IH]; intros acc k sd x l; simpl; [tauto|].
  destruct (dict_getitem (hwords s) w) as [xl|e]; [|tauto].
  destruct (Model_score m (fst xl) (snd xl)) as [v|e].
  - specialize (IH (acc + v)%float k sd x l).
    destruct (dic_sum s m ws (acc + v)) as [r evs]. simpl in *.
    intros [H|H]; [discriminate|auto].
  - simpl. intros [H|[]]. discriminate.
Qed.

Lemma dic_events_fits s k k' sd x l :
  In (EvFit k' sd x l) (dic_events s k) ->
  sd = random_state s /\ x = X s /\ l = lengths s.
Proof.
  unfold dic_events, fit_event. intros [[= _ <- <- <-]|H]; [auto|].
  destruct (fit_opt s k) as [m|]; [|destruct H].
  destruct H as [H|H]; [discriminate|].
  destruct (Model_score m (X s) (lengths s)); [|destruct H].
  now apply dic_sum_no_fit in H.
Qed.

Lemma cv_events_fits seqs seed folds k k' sd x l :
  In (EvFit k' sd x l) (cv_events seqs seed folds k) ->
  sd = seed /\ exists fold, In fold folds /\ (x, l) = fold_data seqs (fst fold).
Proof.
  unfold cv_events. intros Hin. apply in_flat_map in Hin as (fold & Hf & Hin).
  apply processed_incl in Hf. unfold cv_fold_events in Hin. cbv zeta in Hin.
  destruct Hin as [[= _ <- <- <-]|Hin].
  - split; [reflexivity|]. exists fold. split; [assumption|].
    apply surjective_pairing.
  - destruct (cv_outcome seqs seed k fold); [destruct Hin| |];
      destruct Hin as [H|[]]; discriminate.
Qed.

(** X17: every fit that a selector attempts uses the seed [random_state]
    of the instance.  The constant, the penalized and the discriminative
    selector, and the cross-validated one on a word with 2 or fewer
    sequences, fit on [self.X] and [self.lengths] only (the discriminative
    selector scores the other words' data but never fits on it); on a word
    with more than 2 sequences the cross-validated selector fits on the
    training data of the three folds only. *)
Theorem select_fits (c : selector) (s : ModelSelector) (lg : list event) :
  exists evs,
    snd (select c s lg) = lg ++ evs
    /\ forall k sd x l, In (EvFit k sd x l) evs ->
         sd = random_state s
         /\ (c <> SelectorCV \/ len (sequences s) <= 2 -> x = X s /\ l = lengths s)
         /\ (c = SelectorCV -> 2 < len (sequences s) ->
               exists fold, In fold (folds3 (List.length (sequences s)))
                            /\ (x, l) = fold_data (sequences s) (fst fold)).
Proof.
  destruct c.
  - rewrite SelectorConstant_select_run. simpl. eexists. split; [reflexivity|].
    intros k sd x l [[= _ <- <- <-]|[]]. split; [reflexivity|]. split; [intros _; split; reflexivity|discriminate].
  - rewrite SelectorBIC_select_run. simpl. eexists. split; [reflexivity|].
    intros k sd x l Hin. apply in_flat_map in Hin as (k0 & _ & Hin).
    apply full_data_events_fits in Hin as (-> & -> & ->).
    split; [reflexivity|]. split; [intros _; split; reflexivity|discriminate].
  - rewrite SelectorDIC_select_run. simpl. eexists. split; [reflexivity|].
    intros k sd x l Hin. apply in_flat_map in Hin as (k0 & _ & Hin).
    apply dic_events_fits in Hin as (-> & -> & ->).
    split; [reflexivity|]. split; [intros _; split; reflexivity|discriminate].
  - destruct (le_lt_dec (List.length (sequences s)) 2) as [Hn|Hn].
    + rewrite (SelectorCV_select_nosplit_run s lg Hn). simpl. eexists.
      split; [reflexivity|].
      intros k sd x l Hin. apply in_flat_map in Hin as (k0 & _ & Hin).
      apply full_data_events_fits in Hin as (-> & -> & ->).
      split; [reflexivity|]. split; [intros _; split; reflexivity|]. intros _ H. unfold len in H. lia.
    + rewrite (SelectorCV_select_split_run s lg Hn). cbn [fst snd]. eexists.
      split; [reflexivity|].
      intros k sd x l Hin. apply in_flat_map in Hin as (k0 & _ & Hin).
      apply cv_events_fits in Hin as (-> & fold & Hfold & Heq).
      split; [reflexivity|]. split.
      * intros [H|H]; [congruence|]. unfold len in H. lia.
      * intros _ _. eauto.
Qed.

(** X18: [select] changes nothing of the instance but, at most, [self.X]
    and [self.lengths]; and it changes these only in [SelectorCV.select]
    on a word with more than 2 sequences and a non-empty range. *)
Theorem select_instance_frame (c : selector) (s : ModelSelector) (lg : list event) :
  let s' := snd (fst (select c s lg)) in
  s' = with_X_lengths s (X s', lengths s')
  /\ (c <> SelectorCV \/ len (sequences s) <= 2
      \/ max_n_components s <= min_n_components s -> s' = s).
Proof.
  cbv zeta. destruct c.
  - rewrite SelectorConstant_select_run. simpl. split; [now destruct s|auto].
  - rewrite SelectorBIC_select_run. simpl. split; [now destruct s|auto].
  - rewrite SelectorDIC_select_run. simpl. split; [now destruct s|auto].
  - destruct (le_lt_dec (List.length (sequences s)) 2) as [Hn|Hn].
    + rewrite (SelectorCV_select_nosplit_run s lg Hn). simpl. split; [now destruct s|auto].
    + rewrite (SelectorCV_select_split_run s lg Hn). cbn [fst snd]. split.
      * match goal with |- context [fold_left with_X_lengths ?l s] =>
          destruct (fold_left_with_X_lengths_fields l s)
            as (H1 & H2 & H3 & H4 & H5 & H6 & H7 & H8 & H9);
          set (s' := fold_left with_X_lengths l s) in * end.
        destruct s'. destruct s. simpl in *. unfold with_X_lengths. simpl. congruence.
      * intros [H|[H|H]]; [congruence|unfold len in H; lia|].
        unfold range. replace (Z.to_nat _) with 0%nat by lia. reflexivity.
Qed.

End WithEngine.
End SelectorMoreLog.

Module SelectorMoreTies.
Import FloatOrder PyFacts Selectors SelectorFacts DICFacts CVFacts SelectorSpec SelectorMore Examples MoreExamples.

Lemma SFltb_false_SFleb x y :
  x <> S754_nan -> y <> S754_nan -> SFltb x y = false -> SFleb y x = true.
Proof.
  unfold SFltb, SFleb.
  destruct x as [[]|[]| |[] mx ex], y as [[]|[]| |[] my ey];
    simpl; try congruence;
    change (PosDef.Pos.compare_cont Eq) with Pos.compare; sf_cases.
Qed.

Lemma ltb_true_not_nan x y : (x <? y)%float = true -> is_nan x = false /\ is_nan y = false.
Proof.
  rewrite ltb_spec. intros H.
  split.
  - destruct (is_nan x) eqn:Hx; [|reflexivity]. apply is_nan_spec in Hx.
    rewrite Hx in H. discriminate.
  - destruct (is_nan y) eqn:Hy; [|reflexivity]. apply is_nan_spec in Hy.
    rewrite Hy in H. unfold SFltb in H. destruct (Prim2SF x) as [[]|[]| |[] m e]; discriminate.
Qed.

(** Below a bound that a number is not below. *)
Lemma ltb_below_bound a b c :
  (a <? b)%float = true -> (c <? b)%float = false -> is_nan c = false -> (a <? c)%float = true.
Proof.
  intros Hab Hcb Hc. apply (ltb_leb_trans a b c Hab).
  destruct (ltb_true_not_nan _ _ Hab) as [_ Hb].
  rewrite leb_spec. rewrite ltb_spec in Hcb.
  apply SFltb_false_SFleb; [| |assumption].
  - intros H. apply is_nan_spec in H. congruence.
  - intros H. apply is_nan_spec in H. congruence.
Qed.

Section WithEngine.
Context {E : Engine}.

(** X19: among candidates with equal BIC scores [SelectorBIC.select]
    keeps the smallest state count: the model it returns belongs to a state
    count of the range whose BIC score is below positive infinity, strictly
    below the score of every smaller state count of the range that was
    scored (with a score that is a number), and not above the score of any
    larger one. *)
Theorem SelectorBIC_select_first_min (s : ModelSelector) (lg : list event) (m : Model) :
  fst (fst (select SelectorBIC s lg)) = Ret (Some m) ->
  exists k sc,
    min_n_components s <= k < max_n_components s
    /\ bic_scored s k m sc
    /\ (sc <? infinity)%float = true
    /\ (forall k' m' sc',
          min_n_components s <= k' < k -> bic_scored s k' m' sc' ->
          is_nan sc' = false -> (sc <? sc')%float = true)
    /\ (forall k' m' sc',
          k < k' < max_n_components s -> bic_scored s k' m' sc' ->
          (sc' <? sc)%float = false).
Proof.
  rewrite SelectorBIC_select_run. cbn [fst snd]. intros [= Hres].
  destruct (track_fold_split lower lower_irrefl lower_trans _ _ _ Hres eq_refl)
    as (l1 & sc & l2 & Hcs & _ & Hbetter & Hafter).
  apply map_eq_app in Hcs as (ks1 & ks' & Hks & <- & Hcs).
  apply map_eq_cons in Hcs as (k & ks2 & -> & Hk & <-).
  pose proof (range_split _ _ _ _ _ Hks) as [-> Hrange].
  pose proof (range_split_l _ _ _ _ _ Hks) as ->.
  exists k, sc. split; [assumption|].
  split; [now apply bic_candidate_scored|].
  destruct (track_fold_best lower lower_irrefl lower_trans
              (map (bic_candidate s) (range (min_n_components s) k)) (infinity, None))
    as [Hfst Hall].
  cbv zeta in Hfst, Hall. cbn [fst] in Hfst.
  unfold lower in Hbetter, Hall, Hafter, Hfst.
  split; [|split].
  - destruct Hfst as [Hfst|Hfst]; [now rewrite <- Hfst|].
    eapply ltb_trans; eassumption.
  - intros k' m' sc' Hk' Hsc' Hnan.
    apply (ltb_below_bound _ _ _ Hbetter); [|assumption].
    apply (Hall m'). apply in_map_iff. exists k'.
    split; [now apply bic_candidate_scored|]. apply range_In. assumption.
  - intros k' m' sc' Hk' Hsc'. apply (Hafter m'). apply in_map_iff. exists k'.
    split; [now apply bic_candidate_scored|]. apply range_In. lia.
Qed.

End WithEngine.

Lemma SelectorBIC_select_first_min_witness :
  exists k sc,
    2 <= k < 4
    /\ bic_scored (E := scenario_engine) selector_A k 2 sc
    /\ (sc <? infinity)%float = true
    /\ (forall k' m' sc',
          2 <= k' < k -> bic_scored (E := scenario_engine) selector_A k' m' sc' ->
          is_nan sc' = false -> (sc <? sc')%float = true)
    /\ (forall k' m' sc',
          k < k' < 4 -> bic_scored (E := scenario_engine) selector_A k' m' sc' ->
          (sc' <? sc)%float = false).
Proof.
  apply (SelectorBIC_select_first_min (E := scenario_engine) selector_A [] 2).
  reflexivity.
Defined.

End SelectorMoreTies.
